(** * RungeKutta.RK4: fixed-step Runge-Kutta integrators

    A shallow embedding of [src/RungeKutta/RK4.py]: the two solver classes
    [firstorder] (dy/dt = f(t, y)) and [secondorder] (du/dt = f(v),
    dv/dt = g(v, u, t)), their mutable histories, and the methods that
    read or change them.

    Python code is effectful: a method mutates the instance it is called on,
    calls user-supplied callables that may raise, and may raise itself.  The
    embedding is therefore monadic: a computation takes the world (the
    instance plus a log of what happened so far) and gives back a result
    (a value or a raised exception) together with the world it leaves. *)

From Stdlib Require Import ZArith QArith Qround Qabs Qpower Lqa.
From Stdlib Require Import List String Bool Lia.
Import ListNotations.

Set Implicit Arguments.

(** ** Exceptions and results *)

(** A raised exception, identified by the name of its class. *)
Inductive exn : Type := Exn (cls : string).


Definition ZeroDivisionError : exn := Exn "ZeroDivisionError".

(** The outcome of evaluating a Python expression or statement. *)
Inductive result (A : Type) : Type :=
| Ret (a : A)
| Raise (e : exn).

Arguments Ret {A} a.
Arguments Raise {A} e.

Definition rbind {A B} (r : result A) (k : A -> result B) : result B :=
  match r with
  | Ret a => k a
  | Raise e => Raise e
  end.

(** ** Numbers

    The solvers are duck-typed: they use [+], [*], [/] and the integer
    literals [2] and [6] on whatever numbers the caller passes, and
    [np.arange] uses [-], [/] and a ceiling.  [PyNum] is that interface.
    Sum, difference, product and the quotient by a divisor that is not zero
    are total, as they are on Python's [float] and [Fraction]; numbers on
    which they raise (an [int] beyond the floats, a value that is no
    number) are not among the [num].  [nzero x] is [x == 0] and [lit z] is
    the integer literal [z] among the numbers.  What [x / y] gives for a
    [y] that is zero depends on the kind of number, and is [ndivzero x y]:
    Python's own numbers raise [ZeroDivisionError], numpy's scalars give an
    infinity or a nan.  [nceil] is the ceiling as [np.arange] takes it for
    the length of an array: of the value as a C double, and refused when
    that is no index. *)
Class PyNum (num : Type) : Type := {
  lit : Z -> num;
  nadd : num -> num -> num;
  nsub : num -> num -> num;
  nmul : num -> num -> num;
  nquot : num -> num -> num;
  nzero : num -> bool;
  ndivzero : num -> num -> result num;
  nceil : num -> result Z;
  lit2_nonzero : nzero (lit 2) = false;
  lit6_nonzero : nzero (lit 6) = false
}.

Declare Scope py_scope.
Delimit Scope py_scope with py.
Notation "x + y" := (nadd x y) : py_scope.
Notation "x - y" := (nsub x y) : py_scope.
Notation "x * y" := (nmul x y) : py_scope.

Section Numeric.
Context {num : Type} `{PyNum num}.

(** [x / y] under [from __future__ import division]. *)
Definition truediv (x y : num) : result num :=
  if nzero y then ndivzero x y else Ret (nquot x y).

(** The quotient [np.arange] takes the length from. *)
Definition arange_quotient (start stop step : num) : num :=
  nquot (stop - start)%py step.

(** [np.arange(start, stop, step)]: the markers [start + i*step] for
    [0 <= i < ceil((stop - start) / step)], none when that length is not
    positive.  The length is computed first, with Python's division. *)
Definition arange (start stop step : num) : result (list num) :=
  rbind (truediv (stop - start)%py step) (fun val =>
  rbind (nceil val) (fun len =>
  Ret (map (fun i => (start + lit (Z.of_nat i) * step)%py)
           (seq 0 (Z.to_nat len))))).
End Numeric.

(** ** The world and its monad *)

Section World.
Context {num : Type}.

(** What an observer of a run can see happen, in order: a call of a
    user-supplied callable with its arguments and outcome, an [append] to
    one of the instance's lists, a [plt.plot] of two lists. *)
Inductive event : Type :=
| EvCall (fn : string) (args : list num) (res : result num)
| EvAppend (attr : string) (x : num)
| EvPlot (xs ys : list num).

(** The instance a method runs on, and the log. *)
Record world (O : Type) : Type := World { self : O; trace : list event }.

Definition M (O A : Type) : Type := world O -> result A * world O.

Definition ret {O A} (a : A) : M O A := fun w => (Ret a, w).

Definition bind {O A B} (m : M O A) (k : A -> M O B) : M O B :=
  fun w =>
    match m w with
    | (Ret a, w') => k a w'
    | (Raise e, w') => (Raise e, w')
    end.

Definition lift {O A} (r : result A) : M O A := fun w => (r, w).

Definition emit {O} (ev : event) : M O unit :=
  fun w => (Ret tt, {| self := self w; trace := trace w ++ [ev] |}).

Definition get_self {O} : M O O := fun w => (Ret (self w), w).

Definition set_self {O} (o : O) : M O unit :=
  fun w => (Ret tt, {| self := o; trace := trace w |}).

(** [for x in xs: body], with the loop's local variables threaded as [l]. *)
Fixpoint for_each {O A L} (xs : list A) (body : A -> L -> M O L) (l : L)
  : M O L :=
  match xs with
  | [] => ret l
  | x :: xs' => bind (body x l) (for_each xs' body)
  end.

(** The state a computation leaves, whatever its outcome. *)
Definition exec {O A} (m : M O A) (w : world O) : world O := snd (m w).

(** Values a method hands back to its caller: [None], a number, a tuple
    of two numbers, a tuple of lists. *)
Inductive value : Type :=
| VNone
| VNum (x : num)
| VPair (x y : num)
| VLists (ls : list (list num)).
End World.

Arguments event num : clear implicits.
Arguments world num O : clear implicits.
Arguments M num O A : clear implicits.
Arguments value num : clear implicits.

Notation "x <- m ;; k" := (bind m (fun x => k))
  (at level 61, m at next level, right associativity).
Notation "m ;; k" := (bind m (fun _ => k))
  (at level 61, right associativity).
Notation "x / y" := (lift (truediv x y)) : py_scope.

(** ** class firstorder *)

Module firstorder.
Section Class.
Context {num : Type} `{PyNum num}.

Record t : Type := Obj {
  ts : list num;
  ys : list num;
  f : num -> num -> result num
}.

Definition __init__ (function : num -> num -> result num) : t :=
  {| ts := []; ys := []; f := function |}.

(** [self.f(a, b)] *)
Definition call_f (a b : num) : M num t num :=
  fun w =>
    let r := f (self w) a b in
    (r, {| self := self w; trace := trace w ++ [EvCall "f" [a; b] r] |}).

(** [self.ys.append(y)] *)
Definition append_ys (y : num) : M num t unit :=
  o <- get_self;;
  set_self {| ts := ts o; ys := ys o ++ [y]; f := f o |};;
  emit (EvAppend "ys" y).

(** [self.ts.append(x)] *)
Definition append_ts (x : num) : M num t unit :=
  o <- get_self;;
  set_self {| ts := ts o ++ [x]; ys := ys o; f := f o |};;
  emit (EvAppend "ts" x).

(** The body of the loop of [solve]; [(ti, yi)] are the loop's locals. *)
Definition solve_body (h : num) (l : num * num) : M num t (num * num) :=
  let '(ti, yi) := l in
  (K1 <- call_f ti yi;;
   h2 <- h / lit 2;;
   q1 <- (K1 * h) / lit 2;;
   K2 <- call_f (ti + h2) (yi + q1);;
   h2' <- h / lit 2;;
   q2 <- (K2 * h) / lit 2;;
   K3 <- call_f (ti + h2') (yi + q2);;
   K4 <- call_f (ti + h) (yi + K3 * h);;
   h6 <- h / lit 6;;
   let yi := yi + h6 * (K1 + lit 2 * K2 + lit 2 * K3 + K4) in
   append_ys yi;;
   let ti := ti + h in
   append_ts ti;;
   ret (ti, yi))%py.

Definition solve (ti yi done h : num) : M num t num :=
  st <- lift (arange ti done h);;
  l <- for_each st (fun _ => solve_body h) (ti, yi);;
  ret (snd l).

(** [graph]: hands the two lists to matplotlib and changes nothing. *)
Definition graph : M num t unit :=
  o <- get_self;;
  emit (EvPlot (ts o) (ys o)).

Definition graphvalues : M num t (list num * list num) :=
  o <- get_self;;
  ret (ts o, ys o).

Definition emptyvalues : M num t unit :=
  o <- get_self;;
  set_self {| ts := []; ys := ys o; f := f o |};;
  o <- get_self;;
  set_self {| ts := ts o; ys := []; f := f o |}.

(** The methods of the class, as a caller can invoke them. *)
Inductive call : Type :=
| Solve (ti yi done h : num)
| Graph
| Graphvalues
| Emptyvalues.

Definition invoke (c : call) : M num t (value num) :=
  match c with
  | Solve ti yi done h => y <- solve ti yi done h;; ret (VNum y)
  | Graph => graph;; ret VNone
  | Graphvalues => p <- graphvalues;; ret (VLists [fst p; snd p])
  | Emptyvalues => emptyvalues;; ret VNone
  end.

(** A newly constructed instance, nothing logged yet. *)
Definition fresh (function : num -> num -> result num) : world num t :=
  {| self := __init__ function; trace := [] |}.

(** A sequence of method calls on one instance; a caller that catches an
    exception goes on with the instance as the failed call left it. *)
Definition lifetime (cs : list call) (w : world num t) : world num t :=
  fold_left (fun w c => exec (invoke c) w) cs w.
End Class.
Arguments t num : clear implicits.
End firstorder.

(** ** class secondorder *)

Module secondorder.
Section Class.
Context {num : Type} `{PyNum num}.

Record t : Type := Obj {
  f : num -> result num;
  g : num -> num -> num -> result num;
  ts : list num;
  us : list num;
  vs : list num
}.

Definition __init__ (function1 : num -> result num)
    (function2 : num -> num -> num -> result num) : t :=
  {| f := function1; g := function2; ts := []; us := []; vs := [] |}.

(** [self.f(a)] *)
Definition call_f (a : num) : M num t num :=
  fun w =>
    let r := f (self w) a in
    (r, {| self := self w; trace := trace w ++ [EvCall "f" [a] r] |}).

(** [self.g(a, b, c)] *)
Definition call_g (a b c : num) : M num t num :=
  fun w =>
    let r := g (self w) a b c in
    (r, {| self := self w; trace := trace w ++ [EvCall "g" [a; b; c] r] |}).

Definition append_us (u : num) : M num t unit :=
  o <- get_self;;
  set_self {| f := f o; g := g o; ts := ts o; us := us o ++ [u];
              vs := vs o |};;
  emit (EvAppend "us" u).

Definition append_vs (v : num) : M num t unit :=
  o <- get_self;;
  set_self {| f := f o; g := g o; ts := ts o; us := us o;
              vs := vs o ++ [v] |};;
  emit (EvAppend "vs" v).

Definition append_ts (x : num) : M num t unit :=
  o <- get_self;;
  set_self {| f := f o; g := g o; ts := ts o ++ [x]; us := us o;
              vs := vs o |};;
  emit (EvAppend "ts" x).

(** The body of the loop of [solve]; [(ti, ui, vi)] are the loop's
    locals.  Arguments are evaluated left to right, as Python does.  What
    [f] and [g] return are numbers of [num], on which arithmetic does not
    raise; the source uses [m4] for the first time in the update of [vi],
    after [us.append], and a [g] whose result made that arithmetic raise
    is outside this body. *)
Definition solve_body (h : num) (l : num * num * num)
  : M num t (num * num * num) :=
  let '(ti, ui, vi) := l in
  (K1 <- call_f vi;;
   m1 <- call_g vi ui ti;;

   a2 <- (m1 * h) / lit 2;;
   K2 <- call_f (vi + a2);;
   b2 <- (m1 * h) / lit 2;;
   c2 <- (K1 * h) / lit 2;;
   d2 <- h / lit 2;;
   m2 <- call_g (vi + b2) (ui + c2) (ti + d2);;

   a3 <- (m2 * h) / lit 2;;
   K3 <- call_f (vi + a3);;
   b3 <- (m2 * h) / lit 2;;
   c3 <- (K2 * h) / lit 2;;
   d3 <- h / lit 2;;
   m3 <- call_g (vi + b3) (ui + c3) (ti + d3);;

   K4 <- call_f (vi + m3 * h);;
   m4 <- call_g (vi + m3 * h) (ui + K3 * h) (ti + h);;

   h6 <- h / lit 6;;
   let ui := ui + h6 * (K1 + lit 2 * K2 + lit 2 * K3 + K4) in
   append_us ui;;

   h6' <- h / lit 6;;
   let vi := vi + h6' * (m1 + lit 2 * m2 + lit 2 * m3 + m4) in
   append_vs vi;;

   let ti := ti + h in
   append_ts ti;;
   ret (ti, ui, vi))%py.

Definition solve (ti ui vi done h : num) : M num t (num * num) :=
  st <- lift (arange ti done h);;
  l <- for_each st (fun _ => solve_body h) (ti, ui, vi);;
  let '(_, ui, vi) := l in
  ret (ui, vi).

(** [graph]: plots [us] and then [vs] against [ts]; changes nothing. *)
Definition graph : M num t unit :=
  o <- get_self;;
  emit (EvPlot (ts o) (us o));;
  o <- get_self;;
  emit (EvPlot (ts o) (vs o)).

(** The methods of the class: [solve] and [graph], nothing else. *)
Inductive call : Type :=
| Solve (ti ui vi done h : num)
| Graph.

Definition invoke (c : call) : M num t (value num) :=
  match c with
  | Solve ti ui vi done h =>
      p <- solve ti ui vi done h;; ret (VPair (fst p) (snd p))
  | Graph => graph;; ret VNone
  end.

Definition fresh (function1 : num -> result num)
    (function2 : num -> num -> num -> result num) : world num t :=
  {| self := __init__ function1 function2; trace := [] |}.

Definition lifetime (cs : list call) (w : world num t) : world num t :=
  fold_left (fun w c => exec (invoke c) w) cs w.
End Class.
Arguments t num : clear implicits.
End secondorder.

(** ** Exact rational numbers

    The instance on which runs are evaluated, Python's [Fraction]:
    arithmetic without rounding, fractions kept in lowest terms, division
    by zero a [ZeroDivisionError].  Only [np.arange] rounds: it takes the
    ceiling of the quotient as a C double. *)

Definition pow2 (e : Z) : Q := Qpower 2 e.

(** The integer nearest to [x], for [x] not below zero; ties go to the
    even one. *)
Definition round_half_even (x : Q) : Z :=
  let fl := Qfloor x in
  match Qcompare (x - inject_Z fl) (1 # 2) with
  | Lt => fl
  | Gt => (fl + 1)%Z
  | Eq => if Z.even fl then fl else (fl + 1)%Z
  end.

(** The integer part of the binary logarithm of [x], for [x] above zero. *)
Definition floor_log2 (x : Q) : Z :=
  let l := (Z.log2 (Qnum x) - Z.log2 (Zpos (Qden x)))%Z in
  if Qle_bool (pow2 l) x then l else (l - 1)%Z.

(** The double nearest to [x], for [x] above zero: 53 significant bits,
    no exponent below that of the subnormal numbers. *)
Definition nearest_double (x : Q) : Q :=
  let e := Z.max (floor_log2 x - 52) (-1074) in
  Qred (inject_Z (round_half_even (x / pow2 e)) * pow2 e).

(** [float(x)] of a [Fraction]: the nearest double, [OverflowError] when
    that is beyond the doubles. *)
Definition to_double (x : Q) : result Q :=
  let d := match Qcompare x 0 with
           | Eq => 0
           | Gt => nearest_double x
           | Lt => - nearest_double (- x)
           end in
  if Qle_bool (pow2 1024) (Qabs d) then Raise (Exn "OverflowError")
  else Ret d.

(** The length [np.arange] takes from a quotient: the ceiling of the
    quotient as a double, [ValueError] when that is beyond the indices. *)
Definition ceil_length (x : Q) : result Z :=
  rbind (to_double x) (fun d =>
    let c := Qceiling d in
    if ((- 2 ^ 63 <=? c) && (c <=? 2 ^ 63 - 1))%Z then Ret c
    else Raise (Exn "ValueError")).

#[export] Instance PyNum_Q : PyNum Q := {|
  lit := inject_Z;
  nadd := fun x y => Qred (x + y);
  nsub := fun x y => Qred (x - y);
  nmul := fun x y => Qred (x * y);
  nquot := fun x y => Qred (x / y);
  nzero := fun x => Qeq_bool x 0;
  ndivzero := fun _ _ => Raise ZeroDivisionError;
  nceil := ceil_length;
  lit2_nonzero := eq_refl;
  lit6_nonzero := eq_refl
|}.

(** The quotient is a double as it stands: [np.arange] rounds nothing. *)
Definition exact_double (x : Q) : Prop :=
  exists d : Q, to_double x = Ret d /\ d == x.

(** The equation of the class docstring, dy/dt = 2t - 3y + 1. *)
Definition example_f (t y : Q) : result Q :=
  Ret (Qred (2 * t - 3 * y + 1)).

(** A slope function that raises once [t] has reached [limit]. *)
Definition failing_f (limit : Q) (t y : Q) : result Q :=
  if Qle_bool limit t then Raise (Exn "ValueError") else Ret (Qred (t + y)).

(** ** The steps as the specification words them

    Sections 4.1 and 4.2 of the specification list what one step does, as
    formulas over quotients.  [spec_scalar_step] and [spec_coupled_step]
    follow those lists item by item and give the step's new [t] and
    value(s) with the events the step shows, when every slope evaluation
    gives a number; [spec_scalar_run] and [spec_coupled_run] repeat them for
    a number of markers. *)

Declare Scope spec_scope.
Delimit Scope spec_scope with spec.
Notation "x + y" := (nadd x y) : spec_scope.
Notation "x * y" := (nmul x y) : spec_scope.
Notation "x / y" := (nquot x y) : spec_scope.
Notation "'2'" := (lit 2) : spec_scope.
Notation "'6'" := (lit 6) : spec_scope.

Section Spec.
Context {num : Type} `{PyNum num}.

Definition spec_scalar_step (f : num -> num -> result num) (h t y : num)
  : option (num * num * list (event num)) :=
  (match f t y with
   | Raise _ => None
   | Ret K1 =>
   match f (t + h / 2) (y + K1 * h / 2) with
   | Raise _ => None
   | Ret K2 =>
   match f (t + h / 2) (y + K2 * h / 2) with
   | Raise _ => None
   | Ret K3 =>
   match f (t + h) (y + K3 * h) with
   | Raise _ => None
   | Ret K4 =>
     let y' := y + (h / 6) * (K1 + 2 * K2 + 2 * K3 + K4) in
     let t' := t + h in
     Some (t', y',
           [EvCall "f" [t; y] (Ret K1);
            EvCall "f" [t + h / 2; y + K1 * h / 2] (Ret K2);
            EvCall "f" [t + h / 2; y + K2 * h / 2] (Ret K3);
            EvCall "f" [t + h; y + K3 * h] (Ret K4);
            EvAppend "ys" y';
            EvAppend "ts" t'])
   end end end end)%spec.

Fixpoint spec_scalar_run (f : num -> num -> result num) (h : num) (n : nat)
    (t y : num) : option (num * num * list (event num)) :=
  match n with
  | O => Some (t, y, [])
  | S n' =>
      match spec_scalar_step f h t y with
      | None => None
      | Some (t1, y1, evs1) =>
          match spec_scalar_run f h n' t1 y1 with
          | None => None
          | Some (tn, yn, evs) => Some (tn, yn, evs1 ++ evs)
          end
      end
  end.

Definition spec_coupled_step (f : num -> result num)
    (g : num -> num -> num -> result num) (h t u v : num)
  : option (num * num * num * list (event num)) :=
  (match f v with
   | Raise _ => None
   | Ret K1 =>
   match g v u t with
   | Raise _ => None
   | Ret m1 =>
   match f (v + m1 * h / 2) with
   | Raise _ => None
   | Ret K2 =>
   match g (v + m1 * h / 2) (u + K1 * h / 2) (t + h / 2) with
   | Raise _ => None
   | Ret m2 =>
   match f (v + m2 * h / 2) with
   | Raise _ => None
   | Ret K3 =>
   match g (v + m2 * h / 2) (u + K2 * h / 2) (t + h / 2) with
   | Raise _ => None
   | Ret m3 =>
   match f (v + m3 * h) with
   | Raise _ => None
   | Ret K4 =>
   match g (v + m3 * h) (u + K3 * h) (t + h) with
   | Raise _ => None
   | Ret m4 =>
     let u' := u + (h / 6) * (K1 + 2 * K2 + 2 * K3 + K4) in
     let v' := v + (h / 6) * (m1 + 2 * m2 + 2 * m3 + m4) in
     let t' := t + h in
     Some (t', u', v',
           [EvCall "f" [v] (Ret K1);
            EvCall "g" [v; u; t] (Ret m1);
            EvCall "f" [v + m1 * h / 2] (Ret K2);
            EvCall "g" [v + m1 * h / 2; u + K1 * h / 2; t + h / 2] (Ret m2);
            EvCall "f" [v + m2 * h / 2] (Ret K3);
            EvCall "g" [v + m2 * h / 2; u + K2 * h / 2; t + h / 2] (Ret m3);
            EvCall "f" [v + m3 * h] (Ret K4);
            EvCall "g" [v + m3 * h; u + K3 * h; t + h] (Ret m4);
            EvAppend "us" u';
            EvAppend "vs" v';
            EvAppend "ts" t'])
   end end end end end end end end)%spec.

Fixpoint spec_coupled_run (f : num -> result num)
    (g : num -> num -> num -> result num) (h : num) (n : nat)
    (t u v : num) : option (num * num * num * list (event num)) :=
  match n with
  | O => Some (t, u, v, [])
  | S n' =>
      match spec_coupled_step f g h t u v with
      | None => None
      | Some (t1, u1, v1, evs1) =>
          match spec_coupled_run f g h n' t1 u1 v1 with
          | None => None
          | Some (tn, un, vn, evs) => Some (tn, un, vn, evs1 ++ evs)
          end
      end
  end.

(** The numbers that a list of events appends to the attribute [attr]. *)
Fixpoint appended (attr : string) (evs : list (event num)) : list num :=
  match evs with
  | [] => []
  | EvAppend a x :: evs' =>
      if String.eqb a attr then x :: appended attr evs'
      else appended attr evs'
  | _ :: evs' => appended attr evs'
  end.

(** The calls of the callable [fn] in a list of events, with the
    arguments each call received. *)
Fixpoint calls_of (fn : string) (evs : list (event num))
  : list (list num) :=
  match evs with
  | [] => []
  | EvCall a args _ :: evs' =>
      if String.eqb a fn then args :: calls_of fn evs'
      else calls_of fn evs'
  | _ :: evs' => calls_of fn evs'
  end.
End Spec.

(** The system of the class docstring with polynomial right-hand sides:
    du/dt = v, dv/dt = 4v - 3u + t. *)
Definition example_f1 (v : Q) : result Q := Ret v.
Definition example_g (v u t : Q) : result Q :=
  Ret (Qred (4 * v - 3 * u + t)).

(** A [g] that raises once [t] has reached [limit]. *)
Definition failing_g (limit : Q) (v u t : Q) : result Q :=
  if Qle_bool limit t then Raise (Exn "ValueError") else Ret (Qred (v + u)).

(** ** Worlds that differ by what a run added

    [solve] only ever adds to the end of the lists and of the log; the
    worlds it can leave are the extensions of the world it started in. *)

Section Extend.
Context {num : Type} `{PyNum num}.

Definition fo_extend (w : world num (firstorder.t num))
    (dts dys : list num) (dtr : list (event num))
  : world num (firstorder.t num) :=
  {| self := {| firstorder.ts := firstorder.ts (self w) ++ dts;
                firstorder.ys := firstorder.ys (self w) ++ dys;
                firstorder.f := firstorder.f (self w) |};
     trace := trace w ++ dtr |}.

Definition so_extend (w : world num (secondorder.t num))
    (dts dus dvs : list num) (dtr : list (event num))
  : world num (secondorder.t num) :=
  {| self := {| secondorder.f := secondorder.f (self w);
                secondorder.g := secondorder.g (self w);
                secondorder.ts := secondorder.ts (self w) ++ dts;
                secondorder.us := secondorder.us (self w) ++ dus;
                secondorder.vs := secondorder.vs (self w) ++ dvs |};
     trace := trace w ++ dtr |}.

(** The instance of the world [w] holds the callables [F] and [G]. *)
Definition so_holds (F : num -> result num)
    (G : num -> num -> num -> result num)
    (w : world num (secondorder.t num)) : Prop :=
  secondorder.f (self w) = F /\ secondorder.g (self w) = G.

(** The lists of an instance have one length. *)
Definition fo_balanced (w : world num (firstorder.t num)) : Prop :=
  List.length (firstorder.ts (self w)) = List.length (firstorder.ys (self w)).

Definition so_balanced (w : world num (secondorder.t num)) : Prop :=
  List.length (secondorder.ts (self w))
  = List.length (secondorder.us (self w)) /\
  List.length (secondorder.ts (self w))
  = List.length (secondorder.vs (self w)).
End Extend.

(** ** What a run shows

    Notions the further properties of the two classes are stated with. *)

Section Observations.
Context {num : Type} `{PyNum num}.

(** The times a loop of [solve] records, [n] of them: [ti] with [h] added
    once, twice, and so on, each from the one before ([ti += h]). *)
Fixpoint times_from (ti h : num) (n : nat) : list num :=
  match n with
  | O => []
  | S n' => (ti + h)%py :: times_from (ti + h)%py h n'
  end.

(** [plt.plot(xs, ys)] needs as many abscissas as ordinates. *)
Definition plot_ok (ev : event num) : Prop :=
  match ev with
  | EvPlot xs ys => List.length xs = List.length ys
  | _ => True
  end.

(** Whatever the computation [m] adds to the log satisfies [P], and it
    takes nothing out of the log. *)
Definition emits {O A : Type} (P : event num -> Prop) (m : M num O A)
  : Prop :=
  forall w, exists d, trace (exec m w) = trace w ++ d /\ Forall P d.

(** What is logged and plotted is in order for the instance. *)
Definition fo_sound (w : world num (firstorder.t num)) : Prop :=
  fo_balanced w /\ Forall plot_ok (trace w).

Definition so_sound (w : world num (secondorder.t num)) : Prop :=
  so_balanced w /\ Forall plot_ok (trace w).

(** Every call of the sequence [cs], made one after the other from the
    world [w], returned. *)
Fixpoint so_all_return (cs : list secondorder.call)
    (w : world num (secondorder.t num)) : Prop :=
  match cs with
  | [] => True
  | c :: cs' =>
      (exists v, fst (secondorder.invoke c w) = Ret v) /\
      so_all_return cs' (exec (secondorder.invoke c) w)
  end.
End Observations.

(** ** Slope functions with known integrals, over exact numbers *)

(** dy/dt = p(t): a slope that does not look at y. *)
Definition slope_of_t (p : Q -> Q) (t y : Q) : result Q := Ret (p t).

(** Simpson's rule for [p] over [n] intervals of width [h] from [t], at the
    points [firstorder.solve] evaluates. *)
Fixpoint simpson (p : Q -> Q) (h : Q) (n : nat) (t : Q) : Q :=
  match n with
  | O => 0
  | S n' =>
      (h / 6) * (p t + 4 * p (nadd t (nquot h (lit 2))) + p (nadd t h))
      + simpson p h n' (nadd t h)
  end.

(** The times [dts] are the points [ti + h], [ti + 2h], ... and the last
    of them is the first such point that is not before [done]. *)
Definition on_grid (ti done h : Q) (dts : list Q) : Prop :=
  (forall k : nat,
      (k < List.length dts)%nat ->
      nth k dts 0 == ti + inject_Z (Z.of_nat (S k)) * h) /\
  done <= last dts 0 /\ last dts 0 < done + h.

(** du/dt = v, dv/dt = a: motion under the constant acceleration [a]. *)
Definition velocity (v : Q) : result Q := Ret v.
Definition acceleration (a : Q) (v u t : Q) : result Q := Ret a.

(** * Proofs *)

(** ** Results, the monad and the loop *)

Section MonadFacts.
Context {num O : Type}.

Lemma bind_ret_l {A B} (a : A) (k : A -> M num O B) (w : world num O) :
  bind (ret a) k w = k a w.
Proof. reflexivity. Qed.

Lemma bind_lift_ret {A B} (a : A) (k : A -> M num O B) (w : world num O) :
  bind (lift (Ret a)) k w = k a w.
Proof. reflexivity. Qed.

Lemma bind_lift_raise {A B} (e : exn) (k : A -> M num O B)
    (w : world num O) :
  bind (lift (Raise e)) k w = (Raise e, w).
Proof. reflexivity. Qed.

Lemma bind_assoc {A B C} (m : M num O A) (k : A -> M num O B)
    (k' : B -> M num O C) (w : world num O) :
  bind (bind m k) k' w = bind m (fun a => bind (k a) k') w.
Proof.
  unfold bind. destruct (m w) as [[a|e] w1]; reflexivity.
Qed.

Context {A L : Type}.
Implicit Types (body : A -> L -> M num O L) (xs : list A).

Lemma for_each_cons body x xs l w :
  for_each (x :: xs) body l w =
  match body x l w with
  | (Ret l1, w1) => for_each xs body l1 w1
  | (Raise e, w1) => (Raise e, w1)
  end.
Proof. reflexivity. Qed.


End MonadFacts.

Section NumericFacts.
Context {num : Type} `{PyNum num}.

Lemma truediv_lit2 (x : num) : truediv x (lit 2) = Ret (nquot x (lit 2)).
Proof. unfold truediv. rewrite lit2_nonzero. reflexivity. Qed.

Lemma truediv_lit6 (x : num) : truediv x (lit 6) = Ret (nquot x (lit 6)).
Proof. unfold truediv. rewrite lit6_nonzero. reflexivity. Qed.



Lemma bind_div2 {O B} (x : num) (k : num -> M num O B) (w : world num O) :
  bind (lift (truediv x (lit 2))) k w = k (nquot x (lit 2)) w.
Proof. rewrite truediv_lit2. reflexivity. Qed.

Lemma bind_div6 {O B} (x : num) (k : num -> M num O B) (w : world num O) :
  bind (lift (truediv x (lit 6))) k w = k (nquot x (lit 6)) w.
Proof. rewrite truediv_lit6. reflexivity. Qed.
End NumericFacts.

(** ** firstorder: one step *)

Section FirstorderStep.
Context {num : Type} `{PyNum num}.
Implicit Types (w : world num (firstorder.t num)).

Lemma fo_extend_nil w : fo_extend w [] [] [] = w.
Proof.
  destruct w as [[ts ys f] tr]. unfold fo_extend; simpl.
  rewrite !app_nil_r. reflexivity.
Qed.

Lemma fo_extend_extend w a b c a' b' c' :
  fo_extend (fo_extend w a b c) a' b' c' =
  fo_extend w (a ++ a') (b ++ b') (c ++ c').
Proof. unfold fo_extend; simpl. rewrite !app_assoc. reflexivity. Qed.

Lemma fo_f_extend w a b c :
  firstorder.f (self (fo_extend w a b c)) = firstorder.f (self w).
Proof. reflexivity. Qed.

Lemma fo_log w (ev : event num) :
  {| self := self w; trace := trace w ++ [ev] |} = fo_extend w [] [] [ev].
Proof.
  destruct w as [[ts ys f] tr]. unfold fo_extend; simpl.
  rewrite !app_nil_r. reflexivity.
Qed.

Lemma fo_bind_call_f {B} (a b : num) (k : num -> M num _ B) w :
  bind (firstorder.call_f a b) k w =
  match firstorder.f (self w) a b with
  | Ret x => k x (fo_extend w [] [] [EvCall "f" [a; b] (Ret x)])
  | Raise e => (Raise e, fo_extend w [] [] [EvCall "f" [a; b] (Raise e)])
  end.
Proof.
  unfold bind, firstorder.call_f. rewrite fo_log.
  destruct (firstorder.f (self w) a b); reflexivity.
Qed.

Lemma fo_append_ys (y : num) w :
  firstorder.append_ys y w = (Ret tt, fo_extend w [] [y] [EvAppend "ys" y]).
Proof.
  destruct w as [[ts ys f] tr]. unfold fo_extend; simpl.
  rewrite !app_nil_r. reflexivity.
Qed.

Lemma fo_append_ts (x : num) w :
  firstorder.append_ts x w = (Ret tt, fo_extend w [x] [] [EvAppend "ts" x]).
Proof.
  destruct w as [[ts ys f] tr]. unfold fo_extend; simpl.
  rewrite !app_nil_r. reflexivity.
Qed.

Lemma fo_bind_append_ys {B} (y : num) (k : unit -> M num _ B) w :
  bind (firstorder.append_ys y) k w =
  k tt (fo_extend w [] [y] [EvAppend "ys" y]).
Proof. unfold bind at 1. rewrite fo_append_ys. reflexivity. Qed.

Lemma fo_bind_append_ts {B} (x : num) (k : unit -> M num _ B) w :
  bind (firstorder.append_ts x) k w =
  k tt (fo_extend w [x] [] [EvAppend "ts" x]).
Proof. unfold bind at 1. rewrite fo_append_ts. reflexivity. Qed.
End FirstorderStep.

(** Runs the body of [firstorder.solve] symbolically, one statement at a
    time; [Hw] says which callable the instance holds, and the outcomes of
    its calls are equations in the context. *)
Ltac fo_exec Hw :=
  unfold firstorder.solve_body;
  repeat first
    [ rewrite bind_div2
    | rewrite bind_div6
    | rewrite fo_bind_append_ys
    | rewrite fo_bind_append_ts
    | rewrite fo_bind_call_f; rewrite ?fo_f_extend; rewrite Hw;
      match goal with
      | E : _ = Ret _ |- _ => rewrite E
      | E : _ = Raise _ |- _ => rewrite E
      end ];
  unfold ret; rewrite ?fo_extend_extend; cbn [app].

Section FirstorderBody.
Context {num : Type} `{PyNum num}.
Implicit Types (w : world num (firstorder.t num)).

(** One pass through the body, for every instance that holds the
    callable [F]: either the four evaluations returned and the step is the
    one [spec_scalar_step] describes, with one entry added to each list; or an
    evaluation raised, that exception is the outcome, and neither list
    changed. *)
Lemma fo_body_master (F : num -> num -> result num) (h t y : num) :
  exists r dts dys dtr,
    (forall w, firstorder.f (self w) = F ->
       firstorder.solve_body h (t, y) w = (r, fo_extend w dts dys dtr)) /\
    match r with
    | Ret (t', y') =>
        dts = [t'] /\ dys = [y'] /\
        spec_scalar_step F h t y = Some (t', y', dtr)
    | Raise e =>
        dts = [] /\ dys = [] /\
        spec_scalar_step F h t y = None /\
        exists args tr, dtr = tr ++ [EvCall "f" args (Raise e)]
    end.
Proof.
  unfold spec_scalar_step.
  destruct (F t y) as [K1|e] eqn:E1.
  2:{ exists (Raise e). do 3 eexists. split.
      - intros w Hw. fo_exec Hw. reflexivity.
      - repeat split. exists [t; y], []. reflexivity. }
  destruct (F _ _) as [K2|e] eqn:E2 in |- *.
  2:{ exists (Raise e). do 3 eexists. split.
      - intros w Hw. fo_exec Hw. reflexivity.
      - repeat split. eexists _, [_]. reflexivity. }
  destruct (F _ _) as [K3|e] eqn:E3 in |- *.
  2:{ exists (Raise e). do 3 eexists. split.
      - intros w Hw. fo_exec Hw. reflexivity.
      - repeat split. eexists _, [_; _]. reflexivity. }
  destruct (F _ _) as [K4|e] eqn:E4 in |- *.
  2:{ exists (Raise e). do 3 eexists. split.
      - intros w Hw. fo_exec Hw. reflexivity.
      - repeat split. eexists _, [_; _; _]. reflexivity. }
  eexists (Ret (_, _)). do 3 eexists. split.
  - intros w Hw. fo_exec Hw. reflexivity.
  - repeat split.
Qed.
End FirstorderBody.

(** ** firstorder: the loop and [solve] *)

Section SpecFacts.
Context {num : Type} `{PyNum num}.

Lemma appended_app (attr : string) (evs1 evs2 : list (event num)) :
  appended attr (evs1 ++ evs2) = appended attr evs1 ++ appended attr evs2.
Proof.
  induction evs1 as [|[fn args res|a x|xs ys] evs1 IH]; simpl;
    try assumption.
  - reflexivity.
  - destruct (String.eqb a attr); simpl; rewrite IH; reflexivity.
Qed.

Lemma scalar_step_appended F h t y t' y' (evs : list (event num)) :
  spec_scalar_step F h t y = Some (t', y', evs) ->
  appended "ts" evs = [t'] /\ appended "ys" evs = [y'].
Proof.
  unfold spec_scalar_step.
  repeat match goal with
         | |- context [match F ?a ?b with _ => _ end] =>
             destruct (F a b); try discriminate
         end.
  intros [= <- <- <-]. split; reflexivity.
Qed.

Lemma coupled_step_appended F G h t u v t' u' v' (evs : list (event num)) :
  spec_coupled_step F G h t u v = Some (t', u', v', evs) ->
  appended "ts" evs = [t'] /\ appended "us" evs = [u'] /\
  appended "vs" evs = [v'].
Proof.
  unfold spec_coupled_step.
  repeat match goal with
         | |- context [match F ?a with _ => _ end] =>
             destruct (F a); try discriminate
         | |- context [match G ?a ?b ?c with _ => _ end] =>
             destruct (G a b c); try discriminate
         end.
  intros [= <- <- <- <-]. repeat split; reflexivity.
Qed.
End SpecFacts.

Section FirstorderRun.
Context {num : Type} `{PyNum num}.
Implicit Types (w : world num (firstorder.t num)).


(** The loop over the markers [st], for every instance that holds [F]. *)
Lemma fo_loop_master (F : num -> num -> result num) (h : num)
    (st : list num) : forall t y,
  exists r dts dys dtr,
    (forall w, firstorder.f (self w) = F ->
       for_each st (fun _ => firstorder.solve_body h) (t, y) w =
       (r, fo_extend w dts dys dtr)) /\
    List.length dts = List.length dys /\
    match r with
    | Ret (t', y') =>
        List.length dts = List.length st /\
        spec_scalar_run F h (List.length st) t y = Some (t', y', dtr) /\
        dts = appended "ts" dtr /\ dys = appended "ys" dtr /\
        (st <> [] -> exists p, dys = p ++ [y'])
    | Raise e =>
        (List.length dts < List.length st)%nat /\
        spec_scalar_run F h (List.length st) t y = None /\
        exists args tr, dtr = tr ++ [EvCall "f" args (Raise e)]
    end.
Proof.
  induction st as [|x st IH]; intros t y.
  - exists (Ret (t, y)), [], [], []. split; [|repeat split].
    + intros w _. rewrite fo_extend_nil. reflexivity.
    + intros Hne. contradiction Hne. reflexivity.
  - destruct (fo_body_master F h t y) as (r1 & a1 & b1 & c1 & Hb & Hr1).
    destruct r1 as [[t1 y1]|e].
    + destruct Hr1 as (-> & -> & Hstep).
      destruct (IH t1 y1) as (r & a & b & c & Hl & Hlen & Hr).
      exists r, ([t1] ++ a), ([y1] ++ b), (c1 ++ c). split; [|split].
      * intros w Hw. rewrite for_each_cons, (Hb w Hw).
        rewrite Hl by (rewrite fo_f_extend; assumption).
        rewrite fo_extend_extend. reflexivity.
      * simpl. rewrite Hlen. reflexivity.
      * destruct (scalar_step_appended _ _ _ _ Hstep) as [Hts Hys].
        destruct r as [[t' y']|e].
        -- destruct Hr as (Hn & Hrun & -> & -> & Hlast).
           simpl List.length. simpl spec_scalar_run. rewrite Hstep, Hrun.
           rewrite !appended_app, Hts, Hys.
           repeat split.
           ++ simpl. rewrite Hn. reflexivity.
           ++ intros _. destruct st as [|x' st'].
              ** exists []. simpl in Hrun. inversion Hrun; subst.
                 reflexivity.
              ** destruct Hlast as [p Hp]; [discriminate|].
                 exists (y1 :: p). simpl. rewrite Hp. reflexivity.
        -- destruct Hr as (Hn & Hrun & args & tr & ->).
           simpl List.length. simpl spec_scalar_run. rewrite Hstep, Hrun.
           repeat split.
           ++ simpl. lia.
           ++ exists args, (c1 ++ tr). rewrite app_assoc. reflexivity.
    + destruct Hr1 as (-> & -> & Hstep & args & tr & ->).
      exists (Raise e), [], [], (tr ++ [EvCall "f" args (Raise e)]).
      split; [|split].
      * intros w Hw. rewrite for_each_cons, (Hb w Hw). reflexivity.
      * reflexivity.
      * simpl List.length. simpl spec_scalar_run. rewrite Hstep.
        repeat split.
        -- simpl. lia.
        -- exists args, tr. reflexivity.
Qed.

(** [solve], for every instance that holds [F]: what [np.arange] did,
    then the loop. *)
Lemma fo_solve_master (F : num -> num -> result num) (ti yi done h : num) :
  exists r dts dys dtr,
    (forall w, firstorder.f (self w) = F ->
       firstorder.solve ti yi done h w = (r, fo_extend w dts dys dtr)) /\
    List.length dts = List.length dys /\
    match arange ti done h with
    | Raise e => r = Raise e /\ dts = [] /\ dys = [] /\ dtr = []
    | Ret st =>
        match r with
        | Ret yn =>
            List.length dts = List.length st /\
            (exists tn, spec_scalar_run F h (List.length st) ti yi
                        = Some (tn, yn, dtr)) /\
            dts = appended "ts" dtr /\ dys = appended "ys" dtr /\
            (st <> [] -> exists p, dys = p ++ [yn])
        | Raise e =>
            (List.length dts < List.length st)%nat /\
            spec_scalar_run F h (List.length st) ti yi = None /\
            exists args tr, dtr = tr ++ [EvCall "f" args (Raise e)]
        end
    end.
Proof.
  unfold firstorder.solve.
  destruct (arange ti done h) as [st|e] eqn:Hst.
  - destruct (fo_loop_master F h st ti yi)
      as (r & a & b & c & Hl & Hlen & Hr).
    destruct r as [[tn yn]|e].
    + exists (Ret yn), a, b, c. split; [|split].
      * intros w Hw. rewrite bind_lift_ret. unfold bind.
        rewrite (Hl w Hw). reflexivity.
      * assumption.
      * destruct Hr as (? & ? & ? & ? & ?). repeat split; try assumption.
        exists tn. assumption.
    + exists (Raise e), a, b, c. split; [|split].
      * intros w Hw. rewrite bind_lift_ret. unfold bind.
        rewrite (Hl w Hw). reflexivity.
      * assumption.
      * assumption.
  - exists (Raise e), [], [], []. split; [|repeat split].
    intros w _. rewrite bind_lift_raise, fo_extend_nil. reflexivity.
Qed.
End FirstorderRun.

(** ** secondorder: one step *)

Section SecondorderStep.
Context {num : Type} `{PyNum num}.
Implicit Types (w : world num (secondorder.t num)).

Lemma so_extend_nil w : so_extend w [] [] [] [] = w.
Proof.
  destruct w as [[f g ts us vs] tr]. unfold so_extend; simpl.
  rewrite !app_nil_r. reflexivity.
Qed.

Lemma so_extend_extend w a b c d a' b' c' d' :
  so_extend (so_extend w a b c d) a' b' c' d' =
  so_extend w (a ++ a') (b ++ b') (c ++ c') (d ++ d').
Proof. unfold so_extend; simpl. rewrite !app_assoc. reflexivity. Qed.

Lemma so_f_extend w a b c d :
  secondorder.f (self (so_extend w a b c d)) = secondorder.f (self w).
Proof. reflexivity. Qed.

Lemma so_g_extend w a b c d :
  secondorder.g (self (so_extend w a b c d)) = secondorder.g (self w).
Proof. reflexivity. Qed.


Lemma so_log w (ev : event num) :
  {| self := self w; trace := trace w ++ [ev] |} =
  so_extend w [] [] [] [ev].
Proof.
  destruct w as [[f g ts us vs] tr]. unfold so_extend; simpl.
  rewrite !app_nil_r. reflexivity.
Qed.

Lemma so_bind_call_f {B} (a : num) (k : num -> M num _ B) w :
  bind (secondorder.call_f a) k w =
  match secondorder.f (self w) a with
  | Ret x => k x (so_extend w [] [] [] [EvCall "f" [a] (Ret x)])
  | Raise e => (Raise e, so_extend w [] [] [] [EvCall "f" [a] (Raise e)])
  end.
Proof.
  unfold bind, secondorder.call_f. rewrite so_log.
  destruct (secondorder.f (self w) a); reflexivity.
Qed.

Lemma so_bind_call_g {B} (a b c : num) (k : num -> M num _ B) w :
  bind (secondorder.call_g a b c) k w =
  match secondorder.g (self w) a b c with
  | Ret x => k x (so_extend w [] [] [] [EvCall "g" [a; b; c] (Ret x)])
  | Raise e =>
      (Raise e, so_extend w [] [] [] [EvCall "g" [a; b; c] (Raise e)])
  end.
Proof.
  unfold bind, secondorder.call_g. rewrite so_log.
  destruct (secondorder.g (self w) a b c); reflexivity.
Qed.

Lemma so_bind_append_us {B} (u : num) (k : unit -> M num _ B) w :
  bind (secondorder.append_us u) k w =
  k tt (so_extend w [] [u] [] [EvAppend "us" u]).
Proof.
  destruct w as [[f g ts us vs] tr]. unfold so_extend; simpl.
  unfold bind; simpl. rewrite !app_nil_r. reflexivity.
Qed.

Lemma so_bind_append_vs {B} (v : num) (k : unit -> M num _ B) w :
  bind (secondorder.append_vs v) k w =
  k tt (so_extend w [] [] [v] [EvAppend "vs" v]).
Proof.
  destruct w as [[f g ts us vs] tr]. unfold so_extend; simpl.
  unfold bind; simpl. rewrite !app_nil_r. reflexivity.
Qed.

Lemma so_bind_append_ts {B} (x : num) (k : unit -> M num _ B) w :
  bind (secondorder.append_ts x) k w =
  k tt (so_extend w [x] [] [] [EvAppend "ts" x]).
Proof.
  destruct w as [[f g ts us vs] tr]. unfold so_extend; simpl.
  unfold bind; simpl. rewrite !app_nil_r. reflexivity.
Qed.
End SecondorderStep.

(** Runs the body of [secondorder.solve] symbolically; [Hf] and [Hg] say
    which callables the instance holds. *)
Ltac so_exec Hf Hg :=
  unfold secondorder.solve_body;
  repeat first
    [ rewrite bind_div2
    | rewrite bind_div6
    | rewrite so_bind_append_us
    | rewrite so_bind_append_vs
    | rewrite so_bind_append_ts
    | rewrite so_bind_call_f; rewrite ?so_f_extend; rewrite Hf;
      match goal with
      | E : _ = Ret _ |- _ => rewrite E
      | E : _ = Raise _ |- _ => rewrite E
      end
    | rewrite so_bind_call_g; rewrite ?so_g_extend; rewrite Hg;
      match goal with
      | E : _ = Ret _ |- _ => rewrite E
      | E : _ = Raise _ |- _ => rewrite E
      end ];
  unfold ret; rewrite ?so_extend_extend; cbn [app].

(** Splits a list that ends in the event of a raising call. *)
Ltac last_call :=
  first
    [ exists []; reflexivity
    | eexists [_]; reflexivity
    | eexists [_; _]; reflexivity
    | eexists [_; _; _]; reflexivity
    | eexists [_; _; _; _]; reflexivity
    | eexists [_; _; _; _; _]; reflexivity
    | eexists [_; _; _; _; _; _]; reflexivity
    | eexists [_; _; _; _; _; _; _]; reflexivity ].

(** Closes the case of [secondorder.solve_body] in which a call raised [e]. *)
Ltac raised e :=
  exists (Raise e); do 4 eexists; split;
  [ intros w [Hf Hg]; so_exec Hf Hg; reflexivity
  | repeat split; do 2 eexists; last_call ].

Section SecondorderBody.
Context {num : Type} `{PyNum num}.
Implicit Types (w : world num (secondorder.t num)).

(** One pass through the body, for every instance that holds [F] and
    [G]: the step of [spec_coupled_step] with one entry added to each list, or
    the exception of the evaluation that raised and no list changed. *)
Lemma so_body_master F G (h t u v : num) :
  exists r dts dus dvs dtr,
    (forall w, so_holds F G w ->
       secondorder.solve_body h (t, u, v) w =
       (r, so_extend w dts dus dvs dtr)) /\
    match r with
    | Ret (t', u', v') =>
        dts = [t'] /\ dus = [u'] /\ dvs = [v'] /\
        spec_coupled_step F G h t u v = Some (t', u', v', dtr)
    | Raise e =>
        dts = [] /\ dus = [] /\ dvs = [] /\
        spec_coupled_step F G h t u v = None /\
        exists fn args tr, dtr = tr ++ [EvCall fn args (Raise e)]
    end.
Proof.
  unfold spec_coupled_step.
  destruct (F _) as [K1|e] eqn:E1 in |- *; [|raised e].
  destruct (G _ _ _) as [m1|e] eqn:E2 in |- *; [|raised e].
  destruct (F _) as [K2|e] eqn:E3 in |- *; [|raised e].
  destruct (G _ _ _) as [m2|e] eqn:E4 in |- *; [|raised e].
  destruct (F _) as [K3|e] eqn:E5 in |- *; [|raised e].
  destruct (G _ _ _) as [m3|e] eqn:E6 in |- *; [|raised e].
  destruct (F _) as [K4|e] eqn:E7 in |- *; [|raised e].
  destruct (G _ _ _) as [m4|e] eqn:E8 in |- *; [|raised e].
  eexists (Ret (_, _, _)). do 4 eexists. split.
  - intros w [Hf Hg]. so_exec Hf Hg. reflexivity.
  - repeat split.
Qed.
End SecondorderBody.

(** ** secondorder: the loop and [solve] *)

Section SecondorderRun.
Context {num : Type} `{PyNum num}.
Implicit Types (w : world num (secondorder.t num)).
Variables (F : num -> result num) (G : num -> num -> num -> result num).

Lemma so_loop_master (h : num) (st : list num) : forall t u v,
  exists r dts dus dvs dtr,
    (forall w, so_holds F G w ->
       for_each st (fun _ => secondorder.solve_body h) (t, u, v) w =
       (r, so_extend w dts dus dvs dtr)) /\
    (List.length dts = List.length dus /\
     List.length dts = List.length dvs) /\
    match r with
    | Ret (t', u', v') =>
        List.length dts = List.length st /\
        spec_coupled_run F G h (List.length st) t u v
        = Some (t', u', v', dtr) /\
        dts = appended "ts" dtr /\ dus = appended "us" dtr /\
        dvs = appended "vs" dtr /\
        (st <> [] -> exists p q, dus = p ++ [u'] /\ dvs = q ++ [v'])
    | Raise e =>
        (List.length dts < List.length st)%nat /\
        spec_coupled_run F G h (List.length st) t u v = None /\
        exists fn args tr, dtr = tr ++ [EvCall fn args (Raise e)]
    end.
Proof.
  induction st as [|x st IH]; intros t u v.
  - exists (Ret (t, u, v)), [], [], [], []. split; [|repeat split].
    + intros w _. rewrite so_extend_nil. reflexivity.
    + intros Hne. contradiction Hne. reflexivity.
  - destruct (so_body_master F G h t u v)
      as (r1 & a1 & b1 & c1 & d1 & Hb & Hr1).
    destruct r1 as [[[t1 u1] v1]|e].
    + destruct Hr1 as (-> & -> & -> & Hstep).
      destruct (IH t1 u1 v1) as (r & a & b & c & d & Hl & Hlen & Hr).
      exists r, ([t1] ++ a), ([u1] ++ b), ([v1] ++ c), (d1 ++ d).
      split; [|split].
      * intros w Hw. rewrite for_each_cons, (Hb w Hw).
        rewrite Hl by exact Hw.
        rewrite so_extend_extend. reflexivity.
      * destruct Hlen as [Hu Hv]. simpl. rewrite <- Hu, <- Hv.
        split; reflexivity.
      * destruct (coupled_step_appended _ _ _ _ _ _ Hstep)
          as (Hts & Hus & Hvs).
        destruct r as [[[t' u'] v']|e].
        -- destruct Hr as (Hn & Hrun & -> & -> & -> & Hlast).
           simpl List.length. simpl spec_coupled_run. rewrite Hstep, Hrun.
           rewrite !appended_app, Hts, Hus, Hvs.
           repeat split.
           ++ simpl. rewrite Hn. reflexivity.
           ++ intros _. destruct st as [|x' st'].
              ** exists [], []. simpl in Hrun. inversion Hrun; subst.
                 split; reflexivity.
              ** destruct Hlast as (p & q & Hp & Hq); [discriminate|].
                 exists (u1 :: p), (v1 :: q). simpl. rewrite Hp, Hq.
                 split; reflexivity.
        -- destruct Hr as (Hn & Hrun & fn & args & tr & ->).
           simpl List.length. simpl spec_coupled_run. rewrite Hstep, Hrun.
           repeat split.
           ++ simpl. lia.
           ++ exists fn, args, (d1 ++ tr). rewrite app_assoc. reflexivity.
    + destruct Hr1 as (-> & -> & -> & Hstep & fn & args & tr & ->).
      exists (Raise e), [], [], [], (tr ++ [EvCall fn args (Raise e)]).
      split; [|split].
      * intros w Hw. rewrite for_each_cons, (Hb w Hw). reflexivity.
      * split; reflexivity.
      * simpl List.length. simpl spec_coupled_run. rewrite Hstep.
        repeat split.
        -- simpl. lia.
        -- exists fn, args, tr. reflexivity.
Qed.

Lemma so_solve_master (ti ui vi done h : num) :
  exists r dts dus dvs dtr,
    (forall w, so_holds F G w ->
       secondorder.solve ti ui vi done h w =
       (r, so_extend w dts dus dvs dtr)) /\
    (List.length dts = List.length dus /\
     List.length dts = List.length dvs) /\
    match arange ti done h with
    | Raise e => r = Raise e /\ dts = [] /\ dus = [] /\ dvs = [] /\ dtr = []
    | Ret st =>
        match r with
        | Ret (un, vn) =>
            List.length dts = List.length st /\
            (exists tn, spec_coupled_run F G h (List.length st) ti ui vi
                        = Some (tn, un, vn, dtr)) /\
            dts = appended "ts" dtr /\ dus = appended "us" dtr /\
            dvs = appended "vs" dtr /\
            (st <> [] -> exists p q, dus = p ++ [un] /\ dvs = q ++ [vn])
        | Raise e =>
            (List.length dts < List.length st)%nat /\
            spec_coupled_run F G h (List.length st) ti ui vi = None /\
            exists fn args tr, dtr = tr ++ [EvCall fn args (Raise e)]
        end
    end.
Proof.
  unfold secondorder.solve.
  destruct (arange ti done h) as [st|e] eqn:Hst.
  - destruct (so_loop_master h st ti ui vi)
      as (r & a & b & c & d & Hl & Hlen & Hr).
    destruct r as [[[tn un] vn]|e].
    + exists (Ret (un, vn)), a, b, c, d. split; [|split].
      * intros w Hw. rewrite bind_lift_ret. unfold bind.
        rewrite (Hl w Hw). reflexivity.
      * assumption.
      * destruct Hr as (? & ? & ? & ? & ? & ?).
        repeat split; try assumption.
        exists tn. assumption.
    + exists (Raise e), a, b, c, d. split; [|split].
      * intros w Hw. rewrite bind_lift_ret. unfold bind.
        rewrite (Hl w Hw). reflexivity.
      * assumption.
      * assumption.
  - exists (Raise e), [], [], [], []. split; [|repeat split].
    intros w _. rewrite bind_lift_raise, so_extend_nil. reflexivity.
Qed.
End SecondorderRun.

(** * The steps of [solve] *)

Section Steps.
Context {num : Type} `{PyNum num}.

Lemma coupled_step_calls F G h t u v t' u' v' (evs : list (event num)) :
  spec_coupled_step F G h t u v = Some (t', u', v', evs) ->
  Forall (fun args => List.length args = 1%nat) (calls_of "f" evs).
Proof.
  unfold spec_coupled_step.
  repeat match goal with
         | |- context [match F ?a with _ => _ end] =>
             destruct (F a); try discriminate
         | |- context [match G ?a ?b ?c with _ => _ end] =>
             destruct (G a b c); try discriminate
         end.
  intros [= <- <- <- <-]. simpl. repeat constructor.
Qed.

Lemma calls_of_app (fn : string) (evs1 evs2 : list (event num)) :
  calls_of fn (evs1 ++ evs2) = calls_of fn evs1 ++ calls_of fn evs2.
Proof.
  induction evs1 as [|[a args res|a x|xs ys] evs1 IH]; simpl;
    try assumption.
  - reflexivity.
  - destruct (String.eqb a fn); simpl; rewrite IH; reflexivity.
Qed.

Lemma coupled_run_calls F G h n : forall t u v t' u' v' evs,
  spec_coupled_run F G h n t u v = Some (t', u', v', evs) ->
  Forall (fun args => List.length args = 1%nat) (calls_of "f" evs).
Proof.
  induction n as [|n IH]; simpl; intros t u v t' u' v' evs Hrun.
  - inversion Hrun; subst. constructor.
  - destruct (spec_coupled_step F G h t u v) as [[[[t1 u1] v1] evs1]|] eqn:Hs;
      [|discriminate].
    destruct (spec_coupled_run F G h n t1 u1 v1)
      as [[[[tn un] vn] evs2]|] eqn:Hr;
      [|discriminate].
    inversion Hrun; subst.
    rewrite calls_of_app. apply Forall_app. split.
    + eapply coupled_step_calls; eassumption.
    + eapply IH; eassumption.
Qed.

(** C1.  When [np.arange] gives the markers [st] and every evaluation of
    the slope function returns, [firstorder.solve] does, for each marker
    in turn, what [spec_scalar_step] lists: it evaluates K1 = f(t, y),
    K2 = f(t + h/2, y + K1*h/2), K3 = f(t + h/2, y + K2*h/2) and
    K4 = f(t + h, y + K3*h), appends y + (h/6)*(K1 + 2*K2 + 2*K3 + K4) to
    [ys] and then t + h to [ts].  The log grows by exactly those events in
    that order, the two lists grow by exactly the appended numbers, and
    the value returned is the y of the last step. *)
Theorem firstorder_solve_steps :
  forall (w : world num (firstorder.t num)) (ti yi done h : num)
         (st : list num) (tn yn : num) (evs : list (event num)),
    arange ti done h = Ret st ->
    spec_scalar_run (firstorder.f (self w)) h (List.length st) ti yi
      = Some (tn, yn, evs) ->
    firstorder.solve ti yi done h w =
    (Ret yn, fo_extend w (appended "ts" evs) (appended "ys" evs) evs).
Proof.
  intros w ti yi done h st tn yn evs Hst Hrun.
  destruct (fo_solve_master (firstorder.f (self w)) ti yi done h)
    as (r & a & b & c & Hs & _ & Hr).
  rewrite (Hs w eq_refl). rewrite Hst in Hr.
  destruct r as [y|e].
  - destruct Hr as (_ & [tn' Hrun'] & -> & -> & _).
    rewrite Hrun in Hrun'. inversion Hrun'; subst. reflexivity.
  - destruct Hr as (_ & Hnone & _). rewrite Hrun in Hnone. discriminate.
Qed.

(** C2.  When [np.arange] gives the markers [st] and every evaluation of
    [f] and [g] returns, [secondorder.solve] does, for each marker in
    turn, what [spec_coupled_step] lists: K1 = f(v), m1 = g(v, u, t),
    K2 = f(v + m1*h/2), m2 = g(v + m1*h/2, u + K1*h/2, t + h/2),
    K3 = f(v + m2*h/2), m3 = g(v + m2*h/2, u + K2*h/2, t + h/2),
    K4 = f(v + m3*h), m4 = g(v + m3*h, u + K3*h, t + h), then appends
    u + (h/6)(K1 + 2K2 + 2K3 + K4) to [us], v + (h/6)(m1 + 2m2 + 2m3 + m4)
    to [vs] and t + h to [ts].  The log grows by exactly those events in
    that order, and every call of [f] in it has one argument, the
    v-expression of its stage. *)
Theorem secondorder_solve_steps :
  forall (w : world num (secondorder.t num)) (ti ui vi done h : num)
         (st : list num) (tn un vn : num) (evs : list (event num)),
    arange ti done h = Ret st ->
    spec_coupled_run (secondorder.f (self w)) (secondorder.g (self w)) h
      (List.length st) ti ui vi = Some (tn, un, vn, evs) ->
    secondorder.solve ti ui vi done h w =
    (Ret (un, vn),
     so_extend w (appended "ts" evs) (appended "us" evs)
       (appended "vs" evs) evs) /\
    Forall (fun args => List.length args = 1%nat) (calls_of "f" evs).
Proof.
  intros w ti ui vi done h st tn un vn evs Hst Hrun. split.
  - destruct (so_solve_master (secondorder.f (self w))
                (secondorder.g (self w)) ti ui vi done h)
      as (r & a & b & c & d & Hs & _ & Hr).
    rewrite (Hs w (conj eq_refl eq_refl)). rewrite Hst in Hr.
    destruct r as [[u' v']|e].
    + destruct Hr as (_ & [tn' Hrun'] & -> & -> & -> & _).
      rewrite Hrun in Hrun'. inversion Hrun'; subst. reflexivity.
    + destruct Hr as (_ & Hnone & _). rewrite Hrun in Hnone. discriminate.
  - eapply coupled_run_calls; eassumption.
Qed.
End Steps.

Lemma firstorder_solve_steps_witness :
  fst (firstorder.solve 1 5 (6 # 5) (1 # 10) (firstorder.fresh example_f))
  = Ret (10330996499 # 3200000000).
Proof.
  erewrite firstorder_solve_steps by (vm_compute; reflexivity).
  reflexivity.
Defined.

Lemma secondorder_solve_steps_witness :
  fst (secondorder.solve 0 1 (-1) (1 # 10) (1 # 10)
         (secondorder.fresh example_f1 example_g))
  = Ret (13771 # 16000, -36669 # 20000).
Proof.
  edestruct (@secondorder_solve_steps Q _
               (secondorder.fresh example_f1 example_g) 0 1 (-1)
               (1 # 10) (1 # 10)) as [Hs _];
    [vm_compute; reflexivity | vm_compute; reflexivity |].
  rewrite Hs. reflexivity.
Defined.

(** * A step size of zero *)

Section ZeroStep.
Context {num : Type} `{PyNum num}.

End ZeroStep.



(** * Resetting the history *)

Section Reset.
Context {num : Type} `{PyNum num}.

(** C4, as the code has it.  [firstorder.emptyvalues] returns in every
    state, leaves both lists empty and the slope function and the log as
    they were; calling it twice leaves the state of calling it once. *)
Theorem firstorder_emptyvalues_reset :
  forall (w : world num (firstorder.t num)),
    firstorder.emptyvalues w =
    (Ret tt,
     {| self := {| firstorder.ts := []; firstorder.ys := [];
                   firstorder.f := firstorder.f (self w) |};
        trace := trace w |}) /\
    exec firstorder.emptyvalues (exec firstorder.emptyvalues w)
    = exec firstorder.emptyvalues w.
Proof.
  intros w. split; reflexivity.
Qed.

(** [secondorder.solve] only adds to the lists of its instance. *)
Lemma so_solve_extends (w : world num (secondorder.t num))
    (ti ui vi done h : num) :
  exists dts dus dvs dtr,
    exec (secondorder.solve ti ui vi done h) w = so_extend w dts dus dvs dtr.
Proof.
  destruct (so_solve_master (secondorder.f (self w)) (secondorder.g (self w))
              ti ui vi done h) as (r & a & b & c & d & Hs & _).
  exists a, b, c, d. unfold exec. rewrite (Hs w (conj eq_refl eq_refl)).
  reflexivity.
Qed.

Lemma so_graph_self (w : world num (secondorder.t num)) :
  self (exec secondorder.graph w) = self w.
Proof. reflexivity. Qed.

(** No method of [secondorder] takes anything out of [ts]. *)
Lemma so_invoke_keeps_ts (c : secondorder.call)
    (w : world num (secondorder.t num)) :
  exists dts,
    secondorder.ts (self (exec (secondorder.invoke c) w))
    = secondorder.ts (self w) ++ dts.
Proof.
  destruct c as [ti ui vi done h|].
  - destruct (so_solve_extends w ti ui vi done h) as (a & b & c & d & He).
    exists a. unfold exec in *. simpl. unfold bind.
    destruct (secondorder.solve ti ui vi done h w) as [[p|e] w'];
      simpl in *; subst w'; reflexivity.
  - exists []. rewrite app_nil_r. reflexivity.
Qed.
End Reset.

(** No method of [secondorder] is a reset: whatever is called on an
    instance whose history holds an entry, the entry is still there. *)
Lemma secondorder_has_no_reset :
  ~ (exists c : @secondorder.call Q,
       forall w : world Q (secondorder.t Q),
         let w' := exec (secondorder.invoke c) w in
         secondorder.ts (self w') = [] /\
         secondorder.us (self w') = [] /\
         secondorder.vs (self w') = []).
Proof.
  intros [c Hc].
  pose (w := {| self := {| secondorder.f := example_f1;
                           secondorder.g := example_g;
                           secondorder.ts := [1]; secondorder.us := [1];
                           secondorder.vs := [1] |};
                trace := [] |} : world Q (secondorder.t Q)).
  destruct (Hc w) as [Hts _].
  destruct (so_invoke_keeps_ts c w) as [dts Hd].
  rewrite Hd in Hts. discriminate Hts.
Qed.

(** * How many steps *)

Section Count.
Context {num : Type} `{PyNum num}.

(** A call of [firstorder.solve] that returns added one entry per marker
    to each list. *)
Lemma fo_solve_count (w w' : world num (firstorder.t num))
    (ti yi done h y : num) (st : list num) :
  arange ti done h = Ret st ->
  firstorder.solve ti yi done h w = (Ret y, w') ->
  List.length (firstorder.ts (self w'))
  = (List.length (firstorder.ts (self w)) + List.length st)%nat /\
  List.length (firstorder.ys (self w'))
  = (List.length (firstorder.ys (self w)) + List.length st)%nat.
Proof.
  intros Hst Hrun.
  destruct (fo_solve_master (firstorder.f (self w)) ti yi done h)
    as (r & a & b & c & Hs & Hlen & Hr).
  rewrite (Hs w eq_refl) in Hrun. rewrite Hst in Hr.
  inversion Hrun; subst. destruct Hr as (Hn & _).
  simpl. rewrite !List.length_app, <- Hlen, Hn. split; reflexivity.
Qed.

Lemma so_solve_count (w w' : world num (secondorder.t num))
    (ti ui vi done h : num) (p : num * num) (st : list num) :
  arange ti done h = Ret st ->
  secondorder.solve ti ui vi done h w = (Ret p, w') ->
  List.length (secondorder.ts (self w'))
  = (List.length (secondorder.ts (self w)) + List.length st)%nat /\
  List.length (secondorder.us (self w'))
  = (List.length (secondorder.us (self w)) + List.length st)%nat /\
  List.length (secondorder.vs (self w'))
  = (List.length (secondorder.vs (self w)) + List.length st)%nat.
Proof.
  intros Hst Hrun.
  destruct (so_solve_master (secondorder.f (self w)) (secondorder.g (self w))
              ti ui vi done h) as (r & a & b & c & d & Hs & [Hu Hv] & Hr).
  rewrite (Hs w (conj eq_refl eq_refl)) in Hrun. rewrite Hst in Hr.
  inversion Hrun; subst. destruct p as [un vn]. destruct Hr as (Hn & _).
  simpl. rewrite !List.length_app, <- Hu, <- Hv, Hn. repeat split.
Qed.

(** A call of [firstorder.solve] that returns, as a run of the steps. *)
Lemma fo_solve_ret (w w' : world num (firstorder.t num))
    (ti yi done h y : num) (st : list num) :
  arange ti done h = Ret st ->
  firstorder.solve ti yi done h w = (Ret y, w') ->
  exists tn evs,
    spec_scalar_run (firstorder.f (self w)) h (List.length st) ti yi
    = Some (tn, y, evs) /\
    w' = fo_extend w (appended "ts" evs) (appended "ys" evs) evs.
Proof.
  intros Hst Hrun.
  destruct (fo_solve_master (firstorder.f (self w)) ti yi done h)
    as (r & a & b & c & Hs & _ & Hr).
  rewrite (Hs w eq_refl) in Hrun. rewrite Hst in Hr.
  inversion Hrun; subst.
  destruct Hr as (_ & [tn Hspec] & -> & -> & _).
  exists tn, c. split; [exact Hspec | reflexivity].
Qed.

Lemma so_solve_ret (w w' : world num (secondorder.t num))
    (ti ui vi done h u v : num) (st : list num) :
  arange ti done h = Ret st ->
  secondorder.solve ti ui vi done h w = (Ret (u, v), w') ->
  exists tn evs,
    spec_coupled_run (secondorder.f (self w)) (secondorder.g (self w)) h
      (List.length st) ti ui vi = Some (tn, u, v, evs) /\
    w' = so_extend w (appended "ts" evs) (appended "us" evs)
           (appended "vs" evs) evs.
Proof.
  intros Hst Hrun.
  destruct (so_solve_master (secondorder.f (self w)) (secondorder.g (self w))
              ti ui vi done h) as (r & a & b & c & d & Hs & _ & Hr).
  rewrite (Hs w (conj eq_refl eq_refl)) in Hrun. rewrite Hst in Hr.
  inversion Hrun; subst.
  destruct Hr as (_ & [tn Hspec] & -> & -> & -> & _).
  exists tn, d. split; [exact Hspec | reflexivity].
Qed.
End Count.

Section ExactCount.
Open Scope Q_scope.

Lemma pow2_pos (e : Z) : 0 < pow2 e.
Proof. apply Qpower_0_lt. reflexivity. Qed.

Lemma round_half_even_nonneg (x : Q) : 0 <= x -> (0 <= round_half_even x)%Z.
Proof.
  intros Hx. unfold round_half_even.
  assert (Hf : (0 <= Qfloor x)%Z)
    by (apply (Qfloor_resp_le 0 x) in Hx; exact Hx).
  destruct (Qcompare _ _); [destruct (Z.even _)| |]; lia.
Qed.

Lemma nearest_double_nonneg (x : Q) : 0 <= x -> 0 <= nearest_double x.
Proof.
  intros Hx. unfold nearest_double. rewrite Qred_correct.
  set (e := Z.max _ _). pose proof (pow2_pos e) as He.
  apply Qmult_le_0_compat; [|apply Qlt_le_weak; exact He].
  change 0 with (inject_Z 0). rewrite <- Zle_Qle.
  apply round_half_even_nonneg. apply Qle_shift_div_l; [exact He|]. lra.
Qed.

(** Rounding to a double keeps the sign. *)
Lemma to_double_sign (x d : Q) :
  to_double x = Ret d -> (x <= 0 -> d <= 0) /\ (0 <= x -> 0 <= d).
Proof.
  unfold to_double. destruct (Qcompare x 0) eqn:C;
    destruct (Qle_bool _ _); try discriminate; intros [= <-].
  - split; intros _; apply Qle_refl.
  - apply Qlt_alt in C. split; intros Hx.
    + pose proof (nearest_double_nonneg (x := - x)) as Hn. lra.
    + lra.
  - apply Qgt_alt in C. split; intros Hx.
    + lra.
    + apply nearest_double_nonneg. exact Hx.
Qed.

Lemma arange_quotient_eq (ti done h : Q) :
  arange_quotient ti done h == (done - ti) / h.
Proof.
  cbv [arange_quotient nsub nquot PyNum_Q]. rewrite !Qred_correct.
  reflexivity.
Qed.

(** When [np.arange] returns, the step is not zero, the quotient has a
    double, and there are as many markers as the ceiling of that double
    says. *)
Lemma arange_Q_ret (ti done h : Q) (st : list Q) :
  arange ti done h = Ret st ->
  ~ h == 0 /\
  exists d : Q,
    to_double (arange_quotient ti done h) = Ret d /\
    List.length st = Z.to_nat (Qceiling d).
Proof.
  cbv [arange truediv nzero ndivzero nceil arange_quotient PyNum_Q
       ceil_length].
  destruct (Qeq_bool h 0) eqn:E; [discriminate|].
  cbv [rbind]. destruct (to_double _) as [d|e]; [|discriminate].
  destruct (_ && _)%bool; [|discriminate].
  intros [= <-]. split.
  - intros Hz. apply Qeq_bool_iff in Hz. rewrite Hz in E. discriminate E.
  - exists d. split; [reflexivity|].
    rewrite List.length_map, List.length_seq. reflexivity.
Qed.

(** The [k]-th marker lies before [done] exactly when [k] is below the
    ceiling of [(done - ti) / h]. *)
Lemma Q_marker_iff (ti done h : Q) (k : nat) :
  0 < h ->
  ((Z.of_nat k < Qceiling ((done - ti) / h))%Z <->
   ti + inject_Z (Z.of_nat k) * h < done).
Proof.
  intros Hh. set (q := (done - ti) / h).
  assert (Hq : q * h == done - ti).
  { unfold q. field. intros E. rewrite E in Hh. apply (Qlt_irrefl _ Hh). }
  pose proof (Qle_ceiling q) as Hle.
  pose proof (Qceiling_lt q) as Hlt.
  split.
  - intros Hk.
    assert (inject_Z (Z.of_nat k) <= inject_Z (Qceiling q - 1)) as Hk'.
    { rewrite <- Zle_Qle. lia. }
    assert (inject_Z (Z.of_nat k) < q) as Hkq by lra.
    assert (inject_Z (Z.of_nat k) * h < q * h)
      by (apply Qmult_lt_r; assumption).
    lra.
  - intros Hm. rewrite Zlt_Qlt.
    assert (inject_Z (Z.of_nat k) * h < q * h) as Hm' by lra.
    apply Qmult_lt_r in Hm'; [|assumption]. lra.
Qed.

Lemma Q_quotient_sign (ti done h : Q) :
  0 < h ->
  (ti < done -> 0 < (done - ti) / h) /\
  (done <= ti -> (done - ti) / h <= 0).
Proof.
  intros Hh. split; intros Ho.
  - apply Qlt_shift_div_l; [assumption|]. lra.
  - apply Qle_shift_div_r; [assumption|]. lra.
Qed.

(** C5, as the code has it.  With exact numbers, a step size above zero
    and [ti] before [done], when [np.arange] returns: it gives as many
    markers as the ceiling of the quotient [(done - ti)/h] rounded to a
    double says, and a call of [solve] of either class that returns has
    added exactly that many entries to each list of its instance.  When
    the quotient is a double as it stands, these are as many as there are
    [k] with [ti + k*h < done], that is [ceil((done - ti)/h)] of them,
    which is the quotient itself when the quotient is an integer. *)
Theorem solve_step_count :
  forall (w1 : world Q (firstorder.t Q)) (w2 : world Q (secondorder.t Q))
         (ti yi ui vi done h : Q) (st : list Q),
    0 < h -> ti < done ->
    arange ti done h = Ret st ->
    exists d : Q,
      to_double (arange_quotient ti done h) = Ret d /\
      Z.of_nat (List.length st) = Qceiling d /\
      (d == (done - ti) / h ->
       (forall k : nat,
           (k < List.length st)%nat <->
           ti + inject_Z (Z.of_nat k) * h < done) /\
       Z.of_nat (List.length st) = Qceiling ((done - ti) / h) /\
       (forall z : Z,
           (done - ti) / h == inject_Z z ->
           Z.of_nat (List.length st) = z)) /\
      (forall y w',
          firstorder.solve ti yi done h w1 = (Ret y, w') ->
          List.length (firstorder.ts (self w'))
          = (List.length (firstorder.ts (self w1)) + List.length st)%nat /\
          List.length (firstorder.ys (self w'))
          = (List.length (firstorder.ys (self w1)) + List.length st)%nat) /\
      (forall p w',
          secondorder.solve ti ui vi done h w2 = (Ret p, w') ->
          List.length (secondorder.ts (self w'))
          = (List.length (secondorder.ts (self w2)) + List.length st)%nat /\
          List.length (secondorder.us (self w'))
          = (List.length (secondorder.us (self w2)) + List.length st)%nat /\
          List.length (secondorder.vs (self w'))
          = (List.length (secondorder.vs (self w2)) + List.length st)%nat).
Proof.
  intros w1 w2 ti yi ui vi done h st Hh Hlt Hst.
  destruct (arange_Q_ret ti done h Hst) as (_ & d & Hd & Hlen).
  assert (Hd0 : (0 <= Qceiling d)%Z).
  { destruct (to_double_sign _ Hd) as [_ Hpos].
    destruct (Q_quotient_sign ti done Hh) as [Hq _]. specialize (Hq Hlt).
    rewrite <- arange_quotient_eq in Hq.
    apply Qlt_le_weak, Hpos in Hq.
    apply Qceiling_resp_le in Hq. exact Hq. }
  exists d. split; [exact Hd|]. split; [rewrite Hlen; lia|].
  split; [|split].
  - intros Hex. repeat apply conj.
    + intros k. rewrite <- (Q_marker_iff ti done k Hh).
      rewrite <- (Qceiling_comp _ _ Hex), Hlen. lia.
    + rewrite <- (Qceiling_comp _ _ Hex), Hlen. lia.
    + intros z Hz. rewrite Hlen, Z2Nat.id by assumption.
      rewrite (Qceiling_comp _ _ Hex), (Qceiling_comp _ _ Hz).
      apply Qceiling_Z.
  - intros y w' Hrun.
    exact (@fo_solve_count _ _ _ _ _ _ _ _ _ _ Hst Hrun).
  - intros p w' Hrun.
    exact (@so_solve_count _ _ _ _ _ _ _ _ _ _ _ Hst Hrun).
Qed.

(** C6, as the code has it.  With exact numbers, a step size above zero
    and [ti] at or after [done], when [np.arange] returns it gives no
    marker: [solve] of either class returns the initial value(s) it was
    given and leaves the instance and the log as they were. *)
Theorem solve_no_step :
  forall (w1 : world Q (firstorder.t Q)) (w2 : world Q (secondorder.t Q))
         (ti yi ui vi done h : Q) (st : list Q),
    0 < h -> done <= ti ->
    arange ti done h = Ret st ->
    firstorder.solve ti yi done h w1 = (Ret yi, w1) /\
    secondorder.solve ti ui vi done h w2 = (Ret (ui, vi), w2).
Proof.
  intros w1 w2 ti yi ui vi done h st Hh Hle Hst.
  destruct (arange_Q_ret ti done h Hst) as (_ & d & Hd & Hlen).
  assert (Hnil : st = []).
  { destruct (to_double_sign _ Hd) as [Hneg _].
    destruct (Q_quotient_sign ti done Hh) as [_ Hq]. specialize (Hq Hle).
    rewrite <- arange_quotient_eq in Hq. apply Hneg in Hq.
    apply Qceiling_resp_le in Hq. change (Qceiling 0) with 0%Z in Hq.
    destruct st; [reflexivity|]. simpl in Hlen. lia. }
  subst st. unfold firstorder.solve, secondorder.solve. rewrite Hst.
  split; reflexivity.
Qed.
End ExactCount.

Lemma solve_step_count_witness :
  List.length
    (firstorder.ys
       (self (exec (firstorder.solve 1 5 (3 # 2) (1 # 10))
                (firstorder.fresh example_f)))) = 5%nat /\
  (forall k : nat,
      (k < 5)%nat <-> (1 + inject_Z (Z.of_nat k) * (1 # 10) < 3 # 2)%Q).
Proof.
  destruct (@solve_step_count (firstorder.fresh example_f)
              (secondorder.fresh example_f1 example_g)
              1 5 1 (-1) (3 # 2) (1 # 10)
              [1; 11 # 10; 6 # 5; 13 # 10; 7 # 5])
    as (d & Hd & _ & Hex & Hfo & _);
    [reflexivity | reflexivity | vm_compute; reflexivity |].
  split.
  - unfold exec.
    destruct (firstorder.solve 1 5 (3 # 2) (1 # 10)
                (firstorder.fresh example_f)) as [[y|e] w'] eqn:Hrun.
    + destruct (Hfo y w' eq_refl) as [_ Hys]. exact Hys.
    + vm_compute in Hrun. discriminate Hrun.
  - apply Hex. vm_compute in Hd. inversion Hd; subst. reflexivity.
Defined.

Lemma solve_no_step_witness :
  firstorder.solve (3 # 2) 5 1 (1 # 10) (firstorder.fresh example_f)
  = (Ret 5, firstorder.fresh example_f) /\
  secondorder.solve (3 # 2) 1 (-1) 1 (1 # 10)
    (secondorder.fresh example_f1 example_g)
  = (Ret (1, -1), secondorder.fresh example_f1 example_g).
Proof.
  apply (@solve_no_step (firstorder.fresh example_f)
           (secondorder.fresh example_f1 example_g)
           (3 # 2) 5 1 (-1) 1 (1 # 10) []);
    [reflexivity | discriminate | vm_compute; reflexivity].
Defined.

(** Where [np.arange] rounds: for [done] a little after 3 the quotient is
    3 as a double, so [firstorder.solve(0, 0, 3 + 10^-20, 1)] takes three
    steps, though 0, 1, 2 and 3 all lie before [done] and the ceiling of
    the quotient is 4. *)
Lemma solve_step_count_rounds :
  exists y w',
    firstorder.solve 0 0 (3 + (1 # 100000000000000000000)) 1
      (firstorder.fresh example_f) = (Ret y, w') /\
    List.length (firstorder.ys (self w')) = 3%nat /\
    Qceiling ((3 + (1 # 100000000000000000000) - 0) / 1) = 4%Z /\
    (0 + inject_Z 3 * 1 < 3 + (1 # 100000000000000000000))%Q.
Proof.
  do 2 eexists. split; [vm_compute; reflexivity|].
  repeat split.
Qed.

(** Where [np.arange] fails: for [ti] at 10^400 and [done] at 0 the
    quotient is beyond the doubles, and [firstorder.solve(10^400, 5, 0, 1)]
    raises instead of returning its initial value. *)
Lemma solve_no_step_overflows :
  ~ (firstorder.solve (inject_Z (10 ^ 400)) 5 0 1
       (firstorder.fresh example_f)
     = (Ret 5, firstorder.fresh example_f)).
Proof.
  intros Hrun.
  assert (Hr : fst (firstorder.solve (inject_Z (10 ^ 400)) 5 0 1
                      (firstorder.fresh example_f))
               = Raise (Exn "OverflowError"))
    by (vm_compute; reflexivity).
  rewrite Hrun in Hr. discriminate Hr.
Qed.

(** * A slope function that raises *)

Section SlopeErrors.
Context {num : Type} `{PyNum num}.





End SlopeErrors.


(** * Several calls on one instance *)

Section Accumulation.
Context {num : Type} `{PyNum num}.

(** C8.  Two calls of [solve] one after the other on one instance, with no
    reset between them, for which [np.arange] gave the markers [st1] and
    [st2] and which both returned.  The first call made the steps of its
    own arguments, one for each marker of [st1].  The second call made the
    steps of its own arguments, one for each marker of [st2], starting
    from the [t2] and the value(s) it was passed and not from where the
    first call ended.  Each list ends up as what it was, followed by what
    the first run appended, followed by what the second run appended: its
    length has grown by the two step counts.  Both classes. *)
Theorem solve_twice_concatenates :
  (forall (w wa wb : world num (firstorder.t num))
          (t1 y1 d1 h1 t2 y2 d2 h2 r1 r2 : num) (st1 st2 : list num),
      arange t1 d1 h1 = Ret st1 ->
      arange t2 d2 h2 = Ret st2 ->
      firstorder.solve t1 y1 d1 h1 w = (Ret r1, wa) ->
      firstorder.solve t2 y2 d2 h2 wa = (Ret r2, wb) ->
      exists tn1 evs1 tn2 evs2,
        spec_scalar_run (firstorder.f (self w)) h1 (List.length st1) t1 y1
        = Some (tn1, r1, evs1) /\
        spec_scalar_run (firstorder.f (self w)) h2 (List.length st2) t2 y2
        = Some (tn2, r2, evs2) /\
        firstorder.ts (self wb)
        = firstorder.ts (self w)
          ++ appended "ts" evs1 ++ appended "ts" evs2 /\
        firstorder.ys (self wb)
        = firstorder.ys (self w)
          ++ appended "ys" evs1 ++ appended "ys" evs2 /\
        List.length (firstorder.ts (self wb))
        = (List.length (firstorder.ts (self w))
           + List.length st1 + List.length st2)%nat /\
        List.length (firstorder.ys (self wb))
        = (List.length (firstorder.ys (self w))
           + List.length st1 + List.length st2)%nat) /\
  (forall (w wa wb : world num (secondorder.t num))
          (t1 u1 v1 d1 h1 t2 u2 v2 d2 h2 p1 q1 p2 q2 : num)
          (st1 st2 : list num),
      arange t1 d1 h1 = Ret st1 ->
      arange t2 d2 h2 = Ret st2 ->
      secondorder.solve t1 u1 v1 d1 h1 w = (Ret (p1, q1), wa) ->
      secondorder.solve t2 u2 v2 d2 h2 wa = (Ret (p2, q2), wb) ->
      exists tn1 evs1 tn2 evs2,
        spec_coupled_run (secondorder.f (self w)) (secondorder.g (self w))
          h1 (List.length st1) t1 u1 v1 = Some (tn1, p1, q1, evs1) /\
        spec_coupled_run (secondorder.f (self w)) (secondorder.g (self w))
          h2 (List.length st2) t2 u2 v2 = Some (tn2, p2, q2, evs2) /\
        secondorder.ts (self wb)
        = secondorder.ts (self w)
          ++ appended "ts" evs1 ++ appended "ts" evs2 /\
        secondorder.us (self wb)
        = secondorder.us (self w)
          ++ appended "us" evs1 ++ appended "us" evs2 /\
        secondorder.vs (self wb)
        = secondorder.vs (self w)
          ++ appended "vs" evs1 ++ appended "vs" evs2 /\
        List.length (secondorder.ts (self wb))
        = (List.length (secondorder.ts (self w))
           + List.length st1 + List.length st2)%nat /\
        List.length (secondorder.us (self wb))
        = (List.length (secondorder.us (self w))
           + List.length st1 + List.length st2)%nat /\
        List.length (secondorder.vs (self wb))
        = (List.length (secondorder.vs (self w))
           + List.length st1 + List.length st2)%nat).
Proof.
  split.
  - intros w wa wb t1 y1 d1 h1 t2 y2 d2 h2 r1 r2 st1 st2
      Hst1 Hst2 Hrun1 Hrun2.
    destruct (@fo_solve_count _ _ _ _ _ _ _ _ _ _ Hst1 Hrun1) as [Lt1 Ly1].
    destruct (@fo_solve_count _ _ _ _ _ _ _ _ _ _ Hst2 Hrun2) as [Lt2 Ly2].
    destruct (@fo_solve_ret _ _ _ _ _ _ _ _ _ _ Hst1 Hrun1)
      as (tn1 & evs1 & Hspec1 & Ea).
    destruct (@fo_solve_ret _ _ _ _ _ _ _ _ _ _ Hst2 Hrun2)
      as (tn2 & evs2 & Hspec2 & Eb).
    exists tn1, evs1, tn2, evs2.
    rewrite Lt2, Ly2, Lt1, Ly1. rewrite Eb, Ea in *. simpl in *.
    rewrite <- !app_assoc. repeat apply conj; (assumption || reflexivity).
  - intros w wa wb t1 u1 v1 d1 h1 t2 u2 v2 d2 h2 p1 q1 p2 q2 st1 st2
      Hst1 Hst2 Hrun1 Hrun2.
    destruct (@so_solve_count _ _ _ _ _ _ _ _ _ _ _ Hst1 Hrun1)
      as (Lt1 & Lu1 & Lv1).
    destruct (@so_solve_count _ _ _ _ _ _ _ _ _ _ _ Hst2 Hrun2)
      as (Lt2 & Lu2 & Lv2).
    destruct (@so_solve_ret _ _ _ _ _ _ _ _ _ _ _ _ Hst1 Hrun1)
      as (tn1 & evs1 & Hspec1 & Ea).
    destruct (@so_solve_ret _ _ _ _ _ _ _ _ _ _ _ _ Hst2 Hrun2)
      as (tn2 & evs2 & Hspec2 & Eb).
    exists tn1, evs1, tn2, evs2.
    rewrite Lt2, Lu2, Lv2, Lt1, Lu1, Lv1. rewrite Eb, Ea in *. simpl in *.
    rewrite <- !app_assoc. repeat apply conj; (assumption || reflexivity).
Qed.
End Accumulation.

Lemma solve_twice_concatenates_witness :
  List.length
    (firstorder.ys
       (self (exec (firstorder.solve 1 5 (11 # 10) (1 # 10))
                (exec (firstorder.solve 1 5 (6 # 5) (1 # 10))
                   (firstorder.fresh example_f)))))
  = (0 + 2 + 1)%nat.
Proof.
  unfold exec.
  destruct (firstorder.solve 1 5 (6 # 5) (1 # 10)
              (firstorder.fresh example_f)) as [[r1|e1] wa] eqn:Hrun1;
    [|vm_compute in Hrun1; discriminate Hrun1].
  cbn [snd].
  destruct (firstorder.solve 1 5 (11 # 10) (1 # 10) wa)
    as [[r2|e2] wb] eqn:Hrun2;
    [|vm_compute in Hrun1; inversion Hrun1; subst;
      vm_compute in Hrun2; discriminate Hrun2].
  destruct (@solve_twice_concatenates Q _) as [Hfo _].
  destruct (Hfo (firstorder.fresh example_f) wa wb
              1 5 (6 # 5) (1 # 10) 1 5 (11 # 10) (1 # 10) r1 r2
              [1; 11 # 10] [1])
    as (tn1 & evs1 & tn2 & evs2 & _ & _ & _ & _ & _ & Hlen);
    [ vm_compute; reflexivity | vm_compute; reflexivity
    | exact Hrun1 | exact Hrun2 | ].
  exact Hlen.
Defined.

(** * The lists stay of one length *)

Section Balance.
Context {num : Type} `{PyNum num}.

Lemma fo_invoke_balanced (c : firstorder.call)
    (w : world num (firstorder.t num)) :
  fo_balanced w -> fo_balanced (exec (firstorder.invoke c) w).
Proof.
  unfold fo_balanced. intros Hw.
  destruct c as [ti yi done h| | |]; try exact Hw.
  - destruct (fo_solve_master (firstorder.f (self w)) ti yi done h)
      as (r & a & b & c & Hs & Hlen & _).
    unfold exec. simpl. unfold bind. rewrite (Hs w eq_refl).
    destruct r as [y|e]; simpl; rewrite !List.length_app; lia.
  - reflexivity.
Qed.

Lemma so_invoke_balanced (c : secondorder.call)
    (w : world num (secondorder.t num)) :
  so_balanced w -> so_balanced (exec (secondorder.invoke c) w).
Proof.
  unfold so_balanced. intros [Hu Hv].
  destruct c as [ti ui vi done h|]; [|split; assumption].
  destruct (so_solve_master (secondorder.f (self w)) (secondorder.g (self w))
              ti ui vi done h) as (r & a & b & c & d & Hs & [Hlu Hlv] & _).
  unfold exec. simpl. unfold bind. rewrite (Hs w (conj eq_refl eq_refl)).
  destruct r as [p|e]; simpl; rewrite !List.length_app; split; lia.
Qed.

Lemma fo_lifetime_balanced (cs : list firstorder.call) :
  forall w : world num (firstorder.t num),
    fo_balanced w -> fo_balanced (firstorder.lifetime cs w).
Proof.
  induction cs as [|c cs IH]; intros w Hw; [exact Hw|].
  apply IH. apply fo_invoke_balanced. exact Hw.
Qed.

Lemma so_lifetime_balanced (cs : list secondorder.call) :
  forall w : world num (secondorder.t num),
    so_balanced w -> so_balanced (secondorder.lifetime cs w).
Proof.
  induction cs as [|c cs IH]; intros w Hw; [exact Hw|].
  apply IH. apply so_invoke_balanced. exact Hw.
Qed.

(** C9, as the code has it.  After construction and after any sequence
    of method calls on a [firstorder] instance, whether they returned or
    raised, [ts] and [ys] have one length.  After construction and after
    any sequence of method calls on a [secondorder] instance that all
    returned, [ts], [us] and [vs] have one length.
    [firstorder.graphvalues] returns in every state, changes nothing, and
    gives the two lists, which are empty on a new instance. *)
Theorem history_balanced :
  (forall (F : num -> num -> result num) (cs : list firstorder.call),
      fo_balanced (firstorder.lifetime cs (firstorder.fresh F))) /\
  (forall (F : num -> result num) (G : num -> num -> num -> result num)
          (cs : list secondorder.call),
      so_all_return cs (secondorder.fresh F G) ->
      so_balanced (secondorder.lifetime cs (secondorder.fresh F G))) /\
  (forall w : world num (firstorder.t num),
      firstorder.graphvalues w
      = (Ret (firstorder.ts (self w), firstorder.ys (self w)), w)) /\
  (forall F : num -> num -> result num,
      fst (firstorder.graphvalues (firstorder.fresh F)) = Ret ([], [])).
Proof.
  repeat apply conj.
  - intros F cs. apply fo_lifetime_balanced. reflexivity.
  - intros F G cs _. apply so_lifetime_balanced. split; reflexivity.
  - intros w. reflexivity.
  - intros F. reflexivity.
Qed.
End Balance.

Lemma history_balanced_witness :
  so_balanced
    (secondorder.lifetime
       [secondorder.Solve 0 1 (-1) (1 # 5) (1 # 10); secondorder.Graph;
        secondorder.Solve 0 1 (-1) (1 # 10) (1 # 10)]
       (secondorder.fresh example_f1 example_g)).
Proof.
  destruct (@history_balanced Q _) as (_ & Hso & _).
  apply Hso. vm_compute. repeat split; eexists; reflexivity.
Defined.

(** No method of [secondorder] hands the lists to its caller: whatever is
    called on a new instance, what comes back is not a tuple of lists. *)
Lemma secondorder_has_no_accessor :
  ~ (exists (c : @secondorder.call Q) (ls : list (list Q)),
       fst (secondorder.invoke c (secondorder.fresh example_f1 example_g))
       = Ret (VLists ls)).
Proof.
  intros (c & ls & Hc). destruct c as [ti ui vi done h|].
  - simpl in Hc. unfold bind in Hc.
    destruct (secondorder.solve ti ui vi done h _) as [[p|e] w'];
      simpl in Hc; discriminate Hc.
  - discriminate Hc.
Qed.

(** * What [solve] returns *)

Section Returned.
Context {num : Type} `{PyNum num}.

(** C10.  When [np.arange] gave at least one marker and [solve] returns,
    what it returns is the last number it appended: to [ys] for
    [firstorder], and to [us] and [vs], as a pair, for [secondorder]. *)
Theorem solve_returns_last_appended :
  forall (w1 : world num (firstorder.t num))
         (w2 : world num (secondorder.t num))
         (ti yi ui vi done h : num) (st : list num),
    arange ti done h = Ret st ->
    st <> [] ->
    (forall y w',
        firstorder.solve ti yi done h w1 = (Ret y, w') ->
        exists p,
          firstorder.ys (self w') = firstorder.ys (self w1) ++ p ++ [y]) /\
    (forall u v w',
        secondorder.solve ti ui vi done h w2 = (Ret (u, v), w') ->
        exists p q,
          secondorder.us (self w') = secondorder.us (self w2) ++ p ++ [u] /\
          secondorder.vs (self w') = secondorder.vs (self w2) ++ q ++ [v]).
Proof.
  intros w1 w2 ti yi ui vi done h st Hst Hne. split.
  - intros y w' Hrun.
    destruct (fo_solve_master (firstorder.f (self w1)) ti yi done h)
      as (r & a & b & c & Hs & _ & Hr).
    rewrite (Hs w1 eq_refl) in Hrun. rewrite Hst in Hr.
    inversion Hrun; subst.
    destruct Hr as (_ & _ & _ & _ & Hlast).
    destruct (Hlast Hne) as [p Hp]. exists p. simpl. rewrite Hp.
    reflexivity.
  - intros u v w' Hrun.
    destruct (so_solve_master (secondorder.f (self w2))
                (secondorder.g (self w2)) ti ui vi done h)
      as (r & a & b & c & d & Hs & _ & Hr).
    rewrite (Hs w2 (conj eq_refl eq_refl)) in Hrun. rewrite Hst in Hr.
    inversion Hrun; subst.
    destruct Hr as (_ & _ & _ & _ & _ & Hlast).
    destruct (Hlast Hne) as (p & q & Hp & Hq). exists p, q. simpl.
    rewrite Hp, Hq. split; reflexivity.
Qed.
End Returned.

Lemma solve_returns_last_appended_witness :
  exists p,
    firstorder.ys
      (self (exec (firstorder.solve 1 5 (6 # 5) (1 # 10))
               (firstorder.fresh example_f)))
    = [] ++ p ++ [10330996499 # 3200000000].
Proof.
  destruct (@solve_returns_last_appended Q _
              (firstorder.fresh example_f)
              (secondorder.fresh example_f1 example_g)
              1 5 1 (-1) (6 # 5) (1 # 10) [1; 11 # 10]) as [Hfo _];
    [vm_compute; reflexivity | discriminate |].
  edestruct Hfo as [p Hp]; [vm_compute; reflexivity|].
  exists p. exact Hp.
Defined.

(** * Further properties of the two classes *)

(** ** What the methods add to the log *)

Section EmitsFacts.
Context {num O : Type}.
Variable P : event num -> Prop.

Lemma emits_ret {A} (a : A) : emits P (ret a : M num O A).
Proof.
  intros w. exists []. rewrite app_nil_r. split; [reflexivity|constructor].
Qed.

Lemma emits_lift {A} (r : result A) : emits P (lift r : M num O A).
Proof.
  intros w. exists []. rewrite app_nil_r. split; [reflexivity|constructor].
Qed.

Lemma emits_get_self : emits P (get_self : M num O O).
Proof.
  intros w. exists []. rewrite app_nil_r. split; [reflexivity|constructor].
Qed.

Lemma emits_set_self (o : O) : emits P (set_self o : M num O unit).
Proof.
  intros w. exists []. rewrite app_nil_r. split; [reflexivity|constructor].
Qed.

Lemma emits_emit (ev : event num) : P ev -> emits P (emit ev : M num O unit).
Proof.
  intros Hev w. exists [ev]. split; [reflexivity|].
  repeat constructor. exact Hev.
Qed.

Lemma emits_bind {A B} (m : M num O A) (k : A -> M num O B) :
  emits P m -> (forall a, emits P (k a)) -> emits P (bind m k).
Proof.
  unfold emits, exec, bind. intros Hm Hk w.
  destruct (Hm w) as (d1 & E1 & F1).
  destruct (m w) as [[a|e] w1]; simpl in *.
  - destruct (Hk a w1) as (d2 & E2 & F2).
    exists (d1 ++ d2). rewrite E2, E1, app_assoc. split; [reflexivity|].
    apply Forall_app. split; assumption.
  - exists d1. split; assumption.
Qed.

Lemma emits_for_each {A L} (body : A -> L -> M num O L) (xs : list A) :
  (forall x l, emits P (body x l)) -> forall l, emits P (for_each xs body l).
Proof.
  intros Hb. induction xs as [|x xs IH]; intros l.
  - apply emits_ret.
  - simpl. apply emits_bind; [apply Hb | exact IH].
Qed.
End EmitsFacts.

Section SolveEmits.
Context {num : Type} `{PyNum num}.
Variable P : event num -> Prop.
Hypothesis P_call : forall fn args res, P (EvCall fn args res).
Hypothesis P_append : forall attr x, P (EvAppend attr x).

Lemma fo_call_f_emits (a b : num) : emits P (firstorder.call_f a b).
Proof.
  intros w. eexists [_]. split; [reflexivity|]. repeat constructor.
  apply P_call.
Qed.

Lemma so_call_f_emits (a : num) : emits P (secondorder.call_f a).
Proof.
  intros w. eexists [_]. split; [reflexivity|]. repeat constructor.
  apply P_call.
Qed.

Lemma so_call_g_emits (a b c : num) : emits P (secondorder.call_g a b c).
Proof.
  intros w. eexists [_]. split; [reflexivity|]. repeat constructor.
  apply P_call.
Qed.

Lemma fo_solve_emits (ti yi done h : num) :
  emits P (firstorder.solve ti yi done h).
Proof.
  unfold firstorder.solve.
  apply emits_bind; [apply emits_lift|]. intros st.
  apply emits_bind; [|intros l; apply emits_ret].
  apply emits_for_each. intros _ [t y].
  unfold firstorder.solve_body, firstorder.append_ys, firstorder.append_ts.
  repeat first
    [ apply emits_ret
    | apply emits_lift
    | apply emits_get_self
    | apply emits_set_self
    | apply emits_emit; apply P_append
    | apply fo_call_f_emits
    | apply emits_bind; [|intro] ].
Qed.

Lemma so_solve_emits (ti ui vi done h : num) :
  emits P (secondorder.solve ti ui vi done h).
Proof.
  unfold secondorder.solve.
  apply emits_bind; [apply emits_lift|]. intros st.
  apply emits_bind; [|intros [[t u] v]; apply emits_ret].
  apply emits_for_each. intros _ [[t u] v].
  unfold secondorder.solve_body, secondorder.append_us,
    secondorder.append_vs, secondorder.append_ts.
  repeat first
    [ apply emits_ret
    | apply emits_lift
    | apply emits_get_self
    | apply emits_set_self
    | apply emits_emit; apply P_append
    | apply so_call_f_emits
    | apply so_call_g_emits
    | apply emits_bind; [|intro] ].
Qed.
End SolveEmits.

Section Plots.
Context {num : Type} `{PyNum num}.

Lemma plot_ok_call (fn : string) (args : list num) (res : result num) :
  plot_ok (EvCall fn args res).
Proof. exact I. Qed.

Lemma plot_ok_append (attr : string) (x : num) : plot_ok (EvAppend attr x).
Proof. exact I. Qed.

Lemma fo_invoke_sound (c : firstorder.call)
    (w : world num (firstorder.t num)) :
  fo_sound w -> fo_sound (exec (firstorder.invoke c) w).
Proof.
  intros [Hb Ht]. split; [apply fo_invoke_balanced; exact Hb|].
  destruct c as [ti yi done h| | |].
  - assert (He : emits plot_ok
                   (y <- firstorder.solve ti yi done h;; ret (VNum y))).
    { apply emits_bind; [|intro; apply emits_ret].
      apply fo_solve_emits; [exact plot_ok_call | exact plot_ok_append]. }
    destruct (He w) as (d & E & Hd). simpl firstorder.invoke. rewrite E.
    apply Forall_app. split; assumption.
  - simpl. apply Forall_app. split; [exact Ht|].
    repeat constructor. exact Hb.
  - exact Ht.
  - exact Ht.
Qed.

Lemma so_invoke_sound (c : secondorder.call)
    (w : world num (secondorder.t num)) :
  so_sound w -> so_sound (exec (secondorder.invoke c) w).
Proof.
  intros [Hb Ht]. split; [apply so_invoke_balanced; exact Hb|].
  destruct c as [ti ui vi done h|].
  - assert (He : emits plot_ok
                   (p <- secondorder.solve ti ui vi done h;;
                    ret (VPair (fst p) (snd p)))).
    { apply emits_bind; [|intro; apply emits_ret].
      apply so_solve_emits; [exact plot_ok_call | exact plot_ok_append]. }
    destruct (He w) as (d & E & Hd). simpl secondorder.invoke. rewrite E.
    apply Forall_app. split; assumption.
  - simpl. rewrite <- app_assoc. apply Forall_app. split; [exact Ht|].
    destruct Hb as [Hu Hv]. repeat constructor; assumption.
Qed.

(** X1.  Every [plt.plot] that [graph] makes is of two lists of one
    length, so that [graph] never hands matplotlib abscissas and ordinates
    that do not match: on a [firstorder] instance whatever methods were
    called before, in whatever order and whether they returned or raised;
    on a [secondorder] instance whenever the calls before all returned. *)
Theorem graph_plots_match :
  (forall (F : num -> num -> result num) (cs : list firstorder.call),
      Forall plot_ok
        (trace (firstorder.lifetime cs (firstorder.fresh F)))) /\
  (forall (F : num -> result num) (G : num -> num -> num -> result num)
          (cs : list secondorder.call),
      so_all_return cs (secondorder.fresh F G) ->
      Forall plot_ok
        (trace (secondorder.lifetime cs (secondorder.fresh F G)))).
Proof.
  split.
  - intros F cs.
    assert (Hs : forall w : world num (firstorder.t num),
               fo_sound w -> fo_sound (firstorder.lifetime cs w)).
    { induction cs as [|c cs IH]; intros w Hw; [exact Hw|].
      apply IH. apply fo_invoke_sound. exact Hw. }
    apply Hs. split; [reflexivity|constructor].
  - intros F G cs _.
    assert (Hs : forall w : world num (secondorder.t num),
               so_sound w -> so_sound (secondorder.lifetime cs w)).
    { induction cs as [|c cs IH]; intros w Hw; [exact Hw|].
      apply IH. apply so_invoke_sound. exact Hw. }
    apply Hs. split; [split; reflexivity|constructor].
Qed.
End Plots.

Lemma graph_plots_match_witness :
  Forall plot_ok
    (trace
       (secondorder.lifetime
          [secondorder.Solve 0 1 (-1) (1 # 5) (1 # 10); secondorder.Graph]
          (secondorder.fresh example_f1 example_g))).
Proof.
  destruct (@graph_plots_match Q _) as [_ Hso].
  apply Hso. vm_compute. repeat split; eexists; reflexivity.
Defined.

(** ** The times recorded and the evaluations made *)

Section Shape.
Context {num : Type} `{PyNum num}.

Lemma spec_scalar_step_shape F h t y t' y' (evs : list (event num)) :
  spec_scalar_step F h t y = Some (t', y', evs) ->
  t' = (t + h)%py /\ List.length (calls_of "f" evs) = 4%nat.
Proof.
  unfold spec_scalar_step.
  repeat match goal with
         | |- context [match F ?a ?b with _ => _ end] =>
             destruct (F a b); try discriminate
         end.
  intros [= <- <- <-]. split; reflexivity.
Qed.

Lemma spec_coupled_step_shape F G h t u v t' u' v' (evs : list (event num)) :
  spec_coupled_step F G h t u v = Some (t', u', v', evs) ->
  t' = (t + h)%py /\
  List.length (calls_of "f" evs) = 4%nat /\
  List.length (calls_of "g" evs) = 4%nat.
Proof.
  unfold spec_coupled_step.
  repeat match goal with
         | |- context [match F ?a with _ => _ end] =>
             destruct (F a); try discriminate
         | |- context [match G ?a ?b ?c with _ => _ end] =>
             destruct (G a b c); try discriminate
         end.
  intros [= <- <- <- <-]. repeat split; reflexivity.
Qed.

Lemma spec_scalar_run_shape F h n : forall t y tn yn (evs : list (event num)),
  spec_scalar_run F h n t y = Some (tn, yn, evs) ->
  appended "ts" evs = times_from t h n /\
  List.length (calls_of "f" evs) = (4 * n)%nat.
Proof.
  induction n as [|n IH]; simpl; intros t y tn yn evs Hrun.
  - inversion Hrun; subst. split; reflexivity.
  - destruct (spec_scalar_step F h t y) as [[[t1 y1] evs1]|] eqn:Hs;
      [|discriminate].
    destruct (spec_scalar_run F h n t1 y1) as [[[tn' yn'] evs2]|] eqn:Hr;
      [|discriminate].
    inversion Hrun; subst.
    destruct (spec_scalar_step_shape _ _ _ _ Hs) as [-> Hc].
    destruct (scalar_step_appended _ _ _ _ Hs) as [Hts _].
    destruct (IH _ _ _ _ _ Hr) as [IHt IHc].
    rewrite appended_app, calls_of_app, List.length_app, Hts, IHt, Hc, IHc.
    split; [reflexivity | lia].
Qed.

Lemma spec_coupled_run_shape F G h n :
  forall t u v tn un vn (evs : list (event num)),
    spec_coupled_run F G h n t u v = Some (tn, un, vn, evs) ->
    appended "ts" evs = times_from t h n /\
    List.length (calls_of "f" evs) = (4 * n)%nat /\
    List.length (calls_of "g" evs) = (4 * n)%nat.
Proof.
  induction n as [|n IH]; simpl; intros t u v tn un vn evs Hrun.
  - inversion Hrun; subst. repeat split; reflexivity.
  - destruct (spec_coupled_step F G h t u v) as [[[[t1 u1] v1] evs1]|] eqn:Hs;
      [|discriminate].
    destruct (spec_coupled_run F G h n t1 u1 v1)
      as [[[[tn' un'] vn'] evs2]|] eqn:Hr; [|discriminate].
    inversion Hrun; subst.
    destruct (spec_coupled_step_shape _ _ _ _ _ _ Hs) as (-> & Hf & Hg).
    destruct (coupled_step_appended _ _ _ _ _ _ Hs) as (Hts & _).
    destruct (IH _ _ _ _ _ _ _ Hr) as (IHt & IHf & IHg).
    rewrite appended_app, !calls_of_app, !List.length_app.
    rewrite Hts, IHt, Hf, Hg, IHf, IHg.
    repeat split; (reflexivity || lia).
Qed.

(** X2.  The times a call of [solve] that returns adds to [ts] are [ti]
    with [h] added once, twice, ..., one for each marker of [np.arange],
    each computed from the one before.  They are the times at the end of
    the steps, so the initial time [ti] itself is not among them, and they
    do not depend on the slope functions or on the initial values.  Both
    classes. *)
Theorem solve_records_times :
  forall (w1 : world num (firstorder.t num))
         (w2 : world num (secondorder.t num))
         (ti yi ui vi done h : num) (st : list num),
    arange ti done h = Ret st ->
    (forall y w',
        firstorder.solve ti yi done h w1 = (Ret y, w') ->
        firstorder.ts (self w')
        = firstorder.ts (self w1) ++ times_from ti h (List.length st)) /\
    (forall p w',
        secondorder.solve ti ui vi done h w2 = (Ret p, w') ->
        secondorder.ts (self w')
        = secondorder.ts (self w2) ++ times_from ti h (List.length st)).
Proof.
  intros w1 w2 ti yi ui vi done h st Hst. split.
  - intros y w' Hrun.
    destruct (@fo_solve_ret _ _ _ _ _ _ _ _ _ _ Hst Hrun)
      as (tn & evs & Hspec & ->).
    destruct (spec_scalar_run_shape _ _ _ _ _ Hspec) as [Ht _].
    simpl. rewrite Ht. reflexivity.
  - intros [u v] w' Hrun.
    destruct (@so_solve_ret _ _ _ _ _ _ _ _ _ _ _ _ Hst Hrun)
      as (tn & evs & Hspec & ->).
    destruct (spec_coupled_run_shape _ _ _ _ _ _ _ Hspec) as [Ht _].
    simpl. rewrite Ht. reflexivity.
Qed.

(** X3.  A call of [solve] that returns has evaluated its slope functions
    four times for each marker of [np.arange], no more and no less:
    [firstorder.solve] calls [f] 4n times, [secondorder.solve] calls [f]
    4n times and [g] 4n times. *)
Theorem solve_evaluation_count :
  forall (w1 : world num (firstorder.t num))
         (w2 : world num (secondorder.t num))
         (ti yi ui vi done h : num) (st : list num),
    arange ti done h = Ret st ->
    (forall y w',
        firstorder.solve ti yi done h w1 = (Ret y, w') ->
        List.length (calls_of "f" (trace w'))
        = (List.length (calls_of "f" (trace w1)) + 4 * List.length st)%nat) /\
    (forall p w',
        secondorder.solve ti ui vi done h w2 = (Ret p, w') ->
        List.length (calls_of "f" (trace w'))
        = (List.length (calls_of "f" (trace w2)) + 4 * List.length st)%nat /\
        List.length (calls_of "g" (trace w'))
        = (List.length (calls_of "g" (trace w2)) + 4 * List.length st)%nat).
Proof.
  intros w1 w2 ti yi ui vi done h st Hst. split.
  - intros y w' Hrun.
    destruct (@fo_solve_ret _ _ _ _ _ _ _ _ _ _ Hst Hrun)
      as (tn & evs & Hspec & ->).
    destruct (spec_scalar_run_shape _ _ _ _ _ Hspec) as [_ Hc].
    simpl. rewrite calls_of_app, List.length_app, Hc. reflexivity.
  - intros [u v] w' Hrun.
    destruct (@so_solve_ret _ _ _ _ _ _ _ _ _ _ _ _ Hst Hrun)
      as (tn & evs & Hspec & ->).
    destruct (spec_coupled_run_shape _ _ _ _ _ _ _ Hspec) as (_ & Hf & Hg).
    simpl. rewrite !calls_of_app, !List.length_app, Hf, Hg.
    split; reflexivity.
Qed.
End Shape.

Lemma solve_records_times_witness :
  firstorder.ts
    (self (exec (firstorder.solve 1 5 (13 # 10) (1 # 10))
             (firstorder.fresh example_f)))
  = [] ++ times_from 1 (1 # 10) 3.
Proof.
  destruct (@solve_records_times Q _ (firstorder.fresh example_f)
              (secondorder.fresh example_f1 example_g)
              1 5 1 (-1) (13 # 10) (1 # 10) [1; 11 # 10; 6 # 5])
    as [Hfo _];
    [vm_compute; reflexivity|].
  unfold exec.
  destruct (firstorder.solve 1 5 (13 # 10) (1 # 10)
              (firstorder.fresh example_f)) as [[y|e] w'] eqn:Hrun.
  - exact (Hfo y w' eq_refl).
  - vm_compute in Hrun. discriminate Hrun.
Defined.

Lemma solve_evaluation_count_witness :
  List.length
    (calls_of "f"
       (trace (exec (firstorder.solve 1 5 (13 # 10) (1 # 10))
                 (firstorder.fresh example_f))))
  = (0 + 4 * 3)%nat.
Proof.
  destruct (@solve_evaluation_count Q _ (firstorder.fresh example_f)
              (secondorder.fresh example_f1 example_g)
              1 5 1 (-1) (13 # 10) (1 # 10) [1; 11 # 10; 6 # 5])
    as [Hfo _];
    [vm_compute; reflexivity|].
  unfold exec.
  destruct (firstorder.solve 1 5 (13 # 10) (1 # 10)
              (firstorder.fresh example_f)) as [[y|e] w'] eqn:Hrun.
  - exact (Hfo y w' eq_refl).
  - vm_compute in Hrun. discriminate Hrun.
Defined.

(** ** Reuse of an instance *)

Section Reuse.
Context {num : Type} `{PyNum num}.

(** X4.  After [emptyvalues], a call of [firstorder.solve] behaves as on a
    newly constructed instance with the same slope function: it has the
    same outcome and leaves the same lists, whatever the instance held
    before the reset. *)
Theorem emptyvalues_then_solve_as_new :
  forall (w : world num (firstorder.t num)) (ti yi done h : num),
    let new := firstorder.fresh (firstorder.f (self w)) in
    let cleared := exec firstorder.emptyvalues w in
    fst (firstorder.solve ti yi done h cleared)
    = fst (firstorder.solve ti yi done h new) /\
    self (exec (firstorder.solve ti yi done h) cleared)
    = self (exec (firstorder.solve ti yi done h) new).
Proof.
  intros w ti yi done h new cleared.
  destruct (fo_solve_master (firstorder.f (self w)) ti yi done h)
    as (r & a & b & c & Hs & _).
  unfold exec.
  rewrite (Hs cleared eq_refl), (Hs new eq_refl).
  split; reflexivity.
Qed.

Lemma fo_invoke_extends (c : firstorder.call)
    (w : world num (firstorder.t num)) :
  c <> firstorder.Emptyvalues ->
  exists dts dys,
    self (exec (firstorder.invoke c) w)
    = {| firstorder.ts := firstorder.ts (self w) ++ dts;
         firstorder.ys := firstorder.ys (self w) ++ dys;
         firstorder.f := firstorder.f (self w) |}.
Proof.
  intros Hc. destruct c as [ti yi done h| | |].
  - destruct (fo_solve_master (firstorder.f (self w)) ti yi done h)
      as (r & a & b & c & Hs & _).
    exists a, b. unfold exec. simpl. unfold bind. rewrite (Hs w eq_refl).
    destruct r; reflexivity.
  - exists [], []. destruct w as [[ts ys f] tr]. simpl.
    rewrite !app_nil_r. reflexivity.
  - exists [], []. destruct w as [[ts ys f] tr]. simpl.
    rewrite !app_nil_r. reflexivity.
  - contradiction Hc. reflexivity.
Qed.

Lemma so_invoke_extends (c : secondorder.call)
    (w : world num (secondorder.t num)) :
  exists dts dus dvs,
    self (exec (secondorder.invoke c) w)
    = {| secondorder.f := secondorder.f (self w);
         secondorder.g := secondorder.g (self w);
         secondorder.ts := secondorder.ts (self w) ++ dts;
         secondorder.us := secondorder.us (self w) ++ dus;
         secondorder.vs := secondorder.vs (self w) ++ dvs |}.
Proof.
  destruct c as [ti ui vi done h|].
  - destruct (so_solve_master (secondorder.f (self w))
                (secondorder.g (self w)) ti ui vi done h)
      as (r & a & b & c & d & Hs & _).
    exists a, b, c. unfold exec. simpl. unfold bind.
    rewrite (Hs w (conj eq_refl eq_refl)).
    destruct r; reflexivity.
  - exists [], [], []. destruct w as [[f g ts us vs] tr]. simpl.
    rewrite !app_nil_r. reflexivity.
Qed.

(** X5.  Recorded entries stay.  Whatever method other than [emptyvalues]
    is called on a [firstorder] instance, and whatever method is called on
    a [secondorder] instance, whether the call returns or raises, each list
    afterwards is the list before with entries added at its end, and the
    slope functions are the ones the instance was constructed with. *)
Theorem history_only_grows :
  (forall (c : firstorder.call) (w : world num (firstorder.t num)),
      c <> firstorder.Emptyvalues ->
      let o := self (exec (firstorder.invoke c) w) in
      (exists dts, firstorder.ts o = firstorder.ts (self w) ++ dts) /\
      (exists dys, firstorder.ys o = firstorder.ys (self w) ++ dys) /\
      firstorder.f o = firstorder.f (self w)) /\
  (forall (c : secondorder.call) (w : world num (secondorder.t num)),
      let o := self (exec (secondorder.invoke c) w) in
      (exists dts, secondorder.ts o = secondorder.ts (self w) ++ dts) /\
      (exists dus, secondorder.us o = secondorder.us (self w) ++ dus) /\
      (exists dvs, secondorder.vs o = secondorder.vs (self w) ++ dvs) /\
      secondorder.f o = secondorder.f (self w) /\
      secondorder.g o = secondorder.g (self w)).
Proof.
  split.
  - intros c w Hc o. destruct (fo_invoke_extends w Hc) as (a & b & E).
    unfold o. rewrite E. simpl. repeat split; eexists; reflexivity.
  - intros c w o. destruct (so_invoke_extends c w) as (a & b & d & E).
    unfold o. rewrite E. simpl. repeat split; eexists; reflexivity.
Qed.

Lemma for_each_same_length {O A L : Type} (b : L -> M num O L)
    (xs : list A) : forall (xs' : list A) (l : L) (w : world num O),
  List.length xs = List.length xs' ->
  for_each xs (fun _ => b) l w = for_each xs' (fun _ => b) l w.
Proof.
  induction xs as [|x xs IH]; intros [|x' xs'] l w Hlen;
    try discriminate Hlen.
  - reflexivity.
  - rewrite !for_each_cons. injection Hlen as Hlen.
    destruct (b l w) as [[l1|e] w1]; [apply IH; exact Hlen | reflexivity].
Qed.

(** X6.  [solve] looks at [done] only to count the markers: the markers
    themselves are never read.  Two calls that differ in [done] alone and
    for which [np.arange] gives as many markers do the same thing, to the
    instance and to the caller.  Both classes. *)
Theorem solve_counts_markers_only :
  forall (w1 : world num (firstorder.t num))
         (w2 : world num (secondorder.t num))
         (ti yi ui vi done done' h : num) (st st' : list num),
    arange ti done h = Ret st ->
    arange ti done' h = Ret st' ->
    List.length st = List.length st' ->
    firstorder.solve ti yi done h w1 = firstorder.solve ti yi done' h w1 /\
    secondorder.solve ti ui vi done h w2
    = secondorder.solve ti ui vi done' h w2.
Proof.
  intros w1 w2 ti yi ui vi done done' h st st' Hst Hst' Hlen.
  unfold firstorder.solve, secondorder.solve.
  rewrite Hst, Hst', !bind_lift_ret. unfold bind.
  rewrite (for_each_same_length (firstorder.solve_body h) st st' _ _ Hlen).
  rewrite (for_each_same_length (secondorder.solve_body h) st st' _ _ Hlen).
  split; reflexivity.
Qed.
End Reuse.

Lemma history_only_grows_witness :
  firstorder.ys
    (self (exec (firstorder.solve 1 5 (11 # 10) (1 # 10))
             (firstorder.fresh (failing_f (23 # 20)))))
  = [1352687 # 240000] /\
  fst (firstorder.solve 1 5 (6 # 5) (1 # 10)
         (exec (firstorder.solve 1 5 (11 # 10) (1 # 10))
            (firstorder.fresh (failing_f (23 # 20)))))
  = Raise (Exn "ValueError") /\
  exists dys,
    firstorder.ys
      (self (exec (firstorder.invoke
                     (firstorder.Solve 1 5 (6 # 5) (1 # 10)))
               (exec (firstorder.solve 1 5 (11 # 10) (1 # 10))
                  (firstorder.fresh (failing_f (23 # 20))))))
    = [1352687 # 240000] ++ dys.
Proof.
  split; [vm_compute; reflexivity|].
  split; [vm_compute; reflexivity|].
  destruct (@history_only_grows Q _) as [Hfo _].
  destruct (Hfo (firstorder.Solve 1 5 (6 # 5) (1 # 10))
              (exec (firstorder.solve 1 5 (11 # 10) (1 # 10))
                 (firstorder.fresh (failing_f (23 # 20)))))
    as (_ & Hys & _); [discriminate|].
  exact Hys.
Defined.

Lemma solve_counts_markers_only_witness :
  firstorder.solve 1 5 (3 # 2) (1 # 10) (firstorder.fresh example_f)
  = firstorder.solve 1 5 (29 # 20) (1 # 10) (firstorder.fresh example_f).
Proof.
  apply (@solve_counts_markers_only Q _ (firstorder.fresh example_f)
           (secondorder.fresh example_f1 example_g)
           1 5 1 (-1) (3 # 2) (29 # 20) (1 # 10)
           [1; 11 # 10; 6 # 5; 13 # 10; 7 # 5]
           [1; 11 # 10; 6 # 5; 13 # 10; 7 # 5]);
    vm_compute; reflexivity.
Defined.

(** ** Where the integration stops, with exact numbers *)

Section ExactGrid.
Open Scope Q_scope.

Lemma times_from_length (ti h : Q) (n : nat) :
  List.length (times_from ti h n) = n.
Proof.
  revert ti. induction n as [|n IH]; intros ti; simpl; [|rewrite IH];
    reflexivity.
Qed.

Lemma times_from_nth (h : Q) (n : nat) : forall (ti : Q) (k : nat),
  (k < n)%nat ->
  nth k (times_from ti h n) 0 == ti + inject_Z (Z.of_nat (S k)) * h.
Proof.
  induction n as [|n IH]; intros ti k Hk; [lia|].
  destruct k as [|k]; cbn [times_from nth].
  - cbv [nadd PyNum_Q]. rewrite Qred_correct.
    change (inject_Z (Z.of_nat 1)) with 1. ring.
  - rewrite IH by lia. cbv [nadd PyNum_Q]. rewrite Qred_correct.
    rewrite !Nat2Z.inj_succ. unfold Z.succ. rewrite !inject_Z_plus.
    change (inject_Z 1) with 1. ring.
Qed.

Lemma times_from_last (h : Q) (n : nat) : forall ti : Q,
  last (times_from ti h (S n)) 0 == ti + inject_Z (Z.of_nat (S n)) * h.
Proof.
  induction n as [|n IH]; intros ti.
  - cbn [times_from last]. cbv [nadd PyNum_Q]. rewrite Qred_correct.
    change (inject_Z (Z.of_nat 1)) with 1. ring.
  - change (last (times_from ti h (S (S n))) 0)
      with (last (times_from (nadd ti h) h (S n)) 0).
    rewrite IH. cbv [nadd PyNum_Q]. rewrite Qred_correct.
    rewrite (Nat2Z.inj_succ (S n)). unfold Z.succ. rewrite inject_Z_plus.
    change (inject_Z 1) with 1. ring.
Qed.

(** With a step size above zero and [ti] before [done], the times of a
    whole loop are on the grid and stop at the first grid point that is
    not before [done]. *)
Lemma times_from_on_grid (ti done h : Q) :
  0 < h -> ti < done ->
  on_grid ti done h
    (times_from ti h (Z.to_nat (Qceiling ((done - ti) / h)))).
Proof.
  intros Hh Hlt. set (q := (done - ti) / h).
  assert (Hq : q * h == done - ti).
  { unfold q. field. intros E. rewrite E in Hh. apply (Qlt_irrefl _ Hh). }
  pose proof (Qle_ceiling q) as Hle.
  pose proof (Qceiling_lt q) as Hcl.
  assert (Hpos : 0 < q).
  { unfold q. apply Qlt_shift_div_l; [assumption|]. lra. }
  assert (Hc : (0 < Qceiling q)%Z).
  { rewrite Zlt_Qlt. eapply Qlt_le_trans; [exact Hpos | exact Hle]. }
  destruct (Z.to_nat (Qceiling q)) as [|n] eqn:En; [lia|].
  assert (Ec : inject_Z (Z.of_nat (S n)) == inject_Z (Qceiling q)).
  { rewrite <- En, Z2Nat.id by lia. reflexivity. }
  split; [|split].
  - intros k Hk. rewrite times_from_length in Hk.
    apply times_from_nth. exact Hk.
  - rewrite times_from_last, Ec.
    assert (q * h <= inject_Z (Qceiling q) * h).
    { apply Qmult_le_compat_r; [exact Hle | apply Qlt_le_weak; exact Hh]. }
    lra.
  - rewrite times_from_last, Ec.
    assert (Hm : inject_Z (Qceiling q - 1) * h < q * h)
      by (apply Qmult_lt_r; assumption).
    assert (Hr : inject_Z (Qceiling q - 1) * h
                 == inject_Z (Qceiling q) * h - h).
    { unfold Z.sub. rewrite inject_Z_plus.
      change (inject_Z (Z.opp 1)) with (- (1)). ring. }
    rewrite Hr in Hm. lra.
Qed.

Lemma fo_solve_ret_arange (w w' : world Q (firstorder.t Q))
    (ti yi done h y : Q) :
  firstorder.solve ti yi done h w = (Ret y, w') ->
  exists st, arange ti done h = Ret st.
Proof.
  unfold firstorder.solve. destruct (arange ti done h) as [st|e].
  - intros _. exists st. reflexivity.
  - rewrite bind_lift_raise. discriminate.
Qed.

Lemma so_solve_ret_arange (w w' : world Q (secondorder.t Q))
    (ti ui vi done h : Q) (p : Q * Q) :
  secondorder.solve ti ui vi done h w = (Ret p, w') ->
  exists st, arange ti done h = Ret st.
Proof.
  unfold secondorder.solve. destruct (arange ti done h) as [st|e].
  - intros _. exists st. reflexivity.
  - rewrite bind_lift_raise. discriminate.
Qed.

(** When the quotient is a double as it stands, [np.arange] gives as many
    markers as the ceiling of the quotient says. *)
Lemma exact_double_length (ti done h : Q) (st : list Q) :
  arange ti done h = Ret st ->
  exact_double (arange_quotient ti done h) ->
  List.length st = Z.to_nat (Qceiling ((done - ti) / h)).
Proof.
  intros Hst (d & Hd & Hex).
  destruct (arange_Q_ret ti done h Hst) as (_ & d' & Hd' & Hlen).
  rewrite Hd in Hd'. inversion Hd'; subst d'.
  rewrite Hlen. f_equal. apply Qceiling_comp.
  rewrite Hex. apply arange_quotient_eq.
Qed.

(** X7.  With exact numbers, a step size above zero, [ti] before [done]
    and a quotient [(done - ti)/h] that is a double as it stands: the
    times a call of [solve] that returns adds to [ts] are [ti + h],
    [ti + 2h], ..., and the last of them, the time whose value(s) [solve]
    returns, is the first of these points that is not before [done].  It
    is [done] itself only when [done - ti] is a whole number of steps;
    otherwise the integration ends past [done], less than one step past
    it.  Both classes. *)
Theorem solve_stops_at_or_after_done :
  forall (w1 : world Q (firstorder.t Q)) (w2 : world Q (secondorder.t Q))
         (ti yi ui vi done h : Q),
    0 < h -> ti < done ->
    exact_double (arange_quotient ti done h) ->
    (forall y w',
        firstorder.solve ti yi done h w1 = (Ret y, w') ->
        exists dts,
          firstorder.ts (self w') = firstorder.ts (self w1) ++ dts /\
          on_grid ti done h dts) /\
    (forall p w',
        secondorder.solve ti ui vi done h w2 = (Ret p, w') ->
        exists dts,
          secondorder.ts (self w') = secondorder.ts (self w2) ++ dts /\
          on_grid ti done h dts).
Proof.
  intros w1 w2 ti yi ui vi done h Hh Hlt Hex.
  pose proof (times_from_on_grid Hh Hlt) as Hgrid.
  split.
  - intros y w' Hrun.
    destruct (fo_solve_ret_arange _ _ _ _ _ Hrun) as [st Hst].
    destruct (@fo_solve_ret _ _ _ _ _ _ _ _ _ _ Hst Hrun)
      as (tn & evs & Hspec & ->).
    destruct (spec_scalar_run_shape _ _ _ _ _ Hspec) as [Ht _].
    rewrite (@exact_double_length _ _ _ _ Hst Hex) in Ht.
    eexists. split; [reflexivity|]. rewrite Ht. exact Hgrid.
  - intros [u v] w' Hrun.
    destruct (so_solve_ret_arange _ _ _ _ _ _ Hrun) as [st Hst].
    destruct (@so_solve_ret _ _ _ _ _ _ _ _ _ _ _ _ Hst Hrun)
      as (tn & evs & Hspec & ->).
    destruct (spec_coupled_run_shape _ _ _ _ _ _ _ Hspec) as [Ht _].
    rewrite (@exact_double_length _ _ _ _ Hst Hex) in Ht.
    eexists. split; [reflexivity|]. rewrite Ht. exact Hgrid.
Qed.
End ExactGrid.

Lemma solve_stops_at_or_after_done_witness :
  exists dts,
    firstorder.ts
      (self (exec (firstorder.solve 1 5 (29 # 20) (1 # 10))
               (firstorder.fresh example_f))) = [] ++ dts /\
    on_grid 1 (29 # 20) (1 # 10) dts.
Proof.
  destruct (@solve_stops_at_or_after_done (firstorder.fresh example_f)
              (secondorder.fresh example_f1 example_g)
              1 5 1 (-1) (29 # 20) (1 # 10)) as [Hfo _];
    [ reflexivity | reflexivity
    | eexists; split; [vm_compute; reflexivity | reflexivity] | ].
  unfold exec.
  destruct (firstorder.solve 1 5 (29 # 20) (1 # 10)
              (firstorder.fresh example_f)) as [[y|e] w'] eqn:Hrun.
  - exact (Hfo y w' eq_refl).
  - vm_compute in Hrun. discriminate Hrun.
Defined.

(** ** Integrating backwards, with exact numbers *)

Section Backwards.
Open Scope Q_scope.

Lemma Q_marker_iff_neg (ti done h : Q) (k : nat) :
  h < 0 ->
  ((Z.of_nat k < Qceiling ((done - ti) / h))%Z <->
   done < ti + inject_Z (Z.of_nat k) * h).
Proof.
  intros Hh.
  assert (Hnz : ~ h == 0) by (intros E; rewrite E in Hh; discriminate Hh).
  assert (Hq : (done - ti) / h == (- done - - ti) / - h)
    by (field; exact Hnz).
  rewrite (Qceiling_comp _ _ Hq).
  rewrite (Q_marker_iff (- ti) (- done) (h := - h) k) by lra.
  split; intros Hm; lra.
Qed.

(** X8.  With exact numbers, a step size below zero and a quotient
    [(done - ti)/h] that is a double as it stands, [solve] integrates
    backwards: when [np.arange] returns it gives as many markers as there
    are [k] with [ti + k*h] still after [done], the times recorded by a
    call that returns go down from [ti] in steps of [h], and when [ti] is
    at or before [done] no step is taken: the initial value(s) come back
    and the instance and the log are left as they were.  Both classes. *)
Theorem solve_backwards :
  forall (w1 : world Q (firstorder.t Q)) (w2 : world Q (secondorder.t Q))
         (ti yi ui vi done h : Q) (st : list Q),
    h < 0 ->
    arange ti done h = Ret st ->
    exact_double (arange_quotient ti done h) ->
    (forall k : nat,
        (k < List.length st)%nat <->
        done < ti + inject_Z (Z.of_nat k) * h) /\
    (ti <= done ->
     firstorder.solve ti yi done h w1 = (Ret yi, w1) /\
     secondorder.solve ti ui vi done h w2 = (Ret (ui, vi), w2)) /\
    (forall y w',
        firstorder.solve ti yi done h w1 = (Ret y, w') ->
        firstorder.ts (self w')
        = firstorder.ts (self w1) ++ times_from ti h (List.length st)) /\
    (forall p w',
        secondorder.solve ti ui vi done h w2 = (Ret p, w') ->
        secondorder.ts (self w')
        = secondorder.ts (self w2) ++ times_from ti h (List.length st)).
Proof.
  intros w1 w2 ti yi ui vi done h st Hh Hst Hex.
  pose proof (@exact_double_length _ _ _ _ Hst Hex) as Hlen.
  assert (Hk : forall k : nat,
             (k < List.length st)%nat <->
             done < ti + inject_Z (Z.of_nat k) * h).
  { intros k. rewrite <- (Q_marker_iff_neg ti done k Hh), Hlen. lia. }
  repeat apply conj.
  - exact Hk.
  - intros Hle.
    assert (Hnil : st = []).
    { destruct st as [|x st']; [reflexivity|].
      assert (Hm : done < ti + inject_Z (Z.of_nat 0) * h)
        by (apply Hk; simpl; lia).
      change (inject_Z (Z.of_nat 0)) with 0 in Hm. lra. }
    subst st. unfold firstorder.solve, secondorder.solve. rewrite Hst.
    split; reflexivity.
  - intros y w' Hrun.
    destruct (@fo_solve_ret _ _ _ _ _ _ _ _ _ _ Hst Hrun)
      as (tn & evs & Hspec & ->).
    destruct (spec_scalar_run_shape _ _ _ _ _ Hspec) as [Ht _].
    simpl. rewrite Ht. reflexivity.
  - intros [u v] w' Hrun.
    destruct (@so_solve_ret _ _ _ _ _ _ _ _ _ _ _ _ Hst Hrun)
      as (tn & evs & Hspec & ->).
    destruct (spec_coupled_run_shape _ _ _ _ _ _ _ Hspec) as [Ht _].
    simpl. rewrite Ht. reflexivity.
Qed.
End Backwards.

Lemma solve_backwards_witness :
  List.length [3 # 2; 7 # 5; 13 # 10; 6 # 5; 11 # 10] = 5%nat /\
  ((4 < 5)%nat <-> (1 < (3 # 2) + inject_Z (Z.of_nat 4) * - (1 # 10))%Q) /\
  ((5 < 5)%nat <-> (1 < (3 # 2) + inject_Z (Z.of_nat 5) * - (1 # 10))%Q).
Proof.
  destruct (@solve_backwards (firstorder.fresh example_f)
              (secondorder.fresh example_f1 example_g)
              (3 # 2) 5 1 (-1) 1 (- (1 # 10))
              [3 # 2; 7 # 5; 13 # 10; 6 # 5; 11 # 10])
    as (Hk & _);
    [ reflexivity | vm_compute; reflexivity
    | eexists; split; [vm_compute; reflexivity | reflexivity] | ].
  split; [reflexivity|]. split; [exact (Hk 4%nat) | exact (Hk 5%nat)].
Defined.

(** ** Right-hand sides whose integral is known, with exact numbers *)

Section Quadrature.
Open Scope Q_scope.

(** A run of steps on dy/dt = p(t) never fails, and what it adds to y is
    Simpson's sum. *)
Lemma spec_scalar_run_simpson (p : Q -> Q) (h : Q) (n : nat) :
  forall t y : Q,
    exists tn yn evs,
      spec_scalar_run (slope_of_t p) h n t y = Some (tn, yn, evs) /\
      yn == y + simpson p h n t.
Proof.
  induction n as [|n IH]; intros t y.
  - exists t, y, []. split; [reflexivity|]. simpl. ring.
  - cbn [spec_scalar_run simpson]. unfold spec_scalar_step, slope_of_t.
    cbv beta iota zeta.
    match goal with
    | |- context [spec_scalar_run _ h n ?t1 ?y1] =>
        destruct (IH t1 y1) as (tn & yn & evs & Hrun & Hy)
    end.
    unfold slope_of_t in Hrun. rewrite Hrun.
    do 3 eexists. split; [reflexivity|]. rewrite Hy.
    remember (simpson p h n (nadd t h)) as rest eqn:Er. clear Er.
    remember (p t) as K1 eqn:E1. clear E1.
    remember (p (nadd t (nquot h (lit 2)))) as K2 eqn:E2. clear E2.
    remember (p (nadd t h)) as K4 eqn:E4. clear E4.
    cbv [nadd nmul nquot lit PyNum_Q]. rewrite !Qred_correct.
    change (inject_Z 2) with 2. change (inject_Z 6) with 6. field.
Qed.

(** X9.  With exact numbers and a slope function that does not look at y,
    dy/dt = p(t), [firstorder.solve] returns whenever [np.arange] does, and
    what it returns is the initial value plus Simpson's rule for p over
    the steps taken, (h/6)(p(t) + 4 p(t + h/2) + p(t + h)) for each step:
    the weights of the four stages are those of a consistent fourth-order
    scheme. *)
Theorem firstorder_is_simpson :
  forall (w : world Q (firstorder.t Q)) (p : Q -> Q)
         (ti yi done h : Q) (st : list Q),
    firstorder.f (self w) = slope_of_t p ->
    arange ti done h = Ret st ->
    exists y w',
      firstorder.solve ti yi done h w = (Ret y, w') /\
      y == yi + simpson p h (List.length st) ti.
Proof.
  intros w p ti yi done h st Hf Hst.
  destruct (fo_solve_master (slope_of_t p) ti yi done h)
    as (r & a & b & c & Hs & _ & Hr).
  rewrite Hst in Hr.
  destruct (spec_scalar_run_simpson p h (List.length st) ti yi)
    as (tn & yn & evs & Hrun & Hy).
  destruct r as [y|e].
  - destruct Hr as (_ & [tn' Hrun'] & _).
    rewrite Hrun in Hrun'. inversion Hrun'; subst.
    do 2 eexists. split; [apply Hs; exact Hf | exact Hy].
  - destruct Hr as (_ & Hnone & _). rewrite Hrun in Hnone. discriminate.
Qed.

(** One step of the coupled scheme under constant acceleration. *)
Lemma spec_coupled_step_kinematics (a h t u v : Q) :
  exists t1 u1 v1 evs,
    spec_coupled_step velocity (acceleration a) h t u v
    = Some (t1, u1, v1, evs) /\
    v1 == v + h * a /\
    u1 == u + h * v + a * h * h / 2.
Proof.
  unfold spec_coupled_step, velocity, acceleration. cbv beta iota zeta.
  do 4 eexists. split; [reflexivity|].
  cbv [nadd nmul nquot lit PyNum_Q]. rewrite !Qred_correct.
  change (inject_Z 2) with 2. change (inject_Z 6) with 6.
  split; field.
Qed.

Lemma spec_coupled_run_kinematics (a h : Q) (n : nat) :
  forall t u v : Q,
    exists tn un vn evs,
      spec_coupled_run velocity (acceleration a) h n t u v
      = Some (tn, un, vn, evs) /\
      vn == v + inject_Z (Z.of_nat n) * h * a /\
      un == u + inject_Z (Z.of_nat n) * h * v
            + a * (inject_Z (Z.of_nat n) * h)
                * (inject_Z (Z.of_nat n) * h) / 2.
Proof.
  induction n as [|n IH]; intros t u v.
  - exists t, u, v, []. split; [reflexivity|].
    change (inject_Z (Z.of_nat 0)) with 0. split; field.
  - destruct (spec_coupled_step_kinematics a h t u v)
      as (t1 & u1 & v1 & evs1 & Hstep & Hv1 & Hu1).
    destruct (IH t1 u1 v1) as (tn & un & vn & evs & Hrun & Hvn & Hun).
    exists tn, un, vn, (evs1 ++ evs). split.
    + cbn [spec_coupled_run]. rewrite Hstep, Hrun. reflexivity.
    + rewrite Hvn, Hun, Hu1, Hv1.
      rewrite Nat2Z.inj_succ. unfold Z.succ. rewrite inject_Z_plus.
      change (inject_Z 1) with 1. split; field.
Qed.

(** X10.  With exact numbers, for motion under a constant acceleration,
    du/dt = v and dv/dt = a, [secondorder.solve] returns whenever
    [np.arange] does and gives the exact position and velocity after the
    n steps it took: v + (n h) a and u + (n h) v + a (n h)^2 / 2. *)
Theorem secondorder_constant_acceleration :
  forall (w : world Q (secondorder.t Q)) (a ti ui vi done h : Q)
         (st : list Q),
    secondorder.f (self w) = velocity ->
    secondorder.g (self w) = acceleration a ->
    arange ti done h = Ret st ->
    let T := inject_Z (Z.of_nat (List.length st)) * h in
    exists u v w',
      secondorder.solve ti ui vi done h w = (Ret (u, v), w') /\
      v == vi + T * a /\
      u == ui + T * vi + a * T * T / 2.
Proof.
  intros w a ti ui vi done h st Hf Hg Hst T.
  destruct (so_solve_master velocity (acceleration a) ti ui vi done h)
    as (r & dts & dus & dvs & dtr & Hs & _ & Hr).
  rewrite Hst in Hr.
  destruct (spec_coupled_run_kinematics a h (List.length st) ti ui vi)
    as (tn & un & vn & evs & Hrun & Hv & Hu).
  destruct r as [[u v]|e].
  - destruct Hr as (_ & [tn' Hrun'] & _).
    rewrite Hrun in Hrun'. inversion Hrun'; subst.
    do 3 eexists.
    split; [apply Hs; split; assumption|]. split; assumption.
  - destruct Hr as (_ & Hnone & _). rewrite Hrun in Hnone. discriminate.
Qed.
End Quadrature.

Lemma firstorder_is_simpson_witness :
  exists y w',
    firstorder.solve 0 0 1 (1 # 2)
      (firstorder.fresh (slope_of_t (fun t => t))) = (Ret y, w') /\
    (y == 0 + simpson (fun t => t) (1 # 2) 2 0)%Q.
Proof.
  apply (@firstorder_is_simpson
           (firstorder.fresh (slope_of_t (fun t => t))) (fun t => t)
           0 0 1 (1 # 2) [0; 1 # 2]); reflexivity.
Defined.

Lemma secondorder_constant_acceleration_witness :
  exists u v w',
    secondorder.solve 0 0 0 1 (1 # 2)
      (secondorder.fresh velocity (acceleration 2)) = (Ret (u, v), w') /\
    (v == 0 + inject_Z 2 * (1 # 2) * 2)%Q /\
    (u == 0 + inject_Z 2 * (1 # 2) * 0
          + 2 * (inject_Z 2 * (1 # 2)) * (inject_Z 2 * (1 # 2)) / 2)%Q.
Proof.
  apply (@secondorder_constant_acceleration
           (secondorder.fresh velocity (acceleration 2)) 2
           0 0 0 1 (1 # 2) [0; 1 # 2]); reflexivity.
Defined.
